(** * Commit summariser action: pipeline model and verified properties

    The repository ships the action twice: [index.js] and a TypeScript
    source with the same four functions ([getCommitChanges],
    [generateSummary], [sendToAPI], [run]).  The two agree on the handling
    of the summarisation response and on the normalisation of the
    delivery path; they differ in the branch fallback of commit
    extraction, in what counts as a delivery configuration and in the
    delivery headers.  Shared code is embedded once, the variant code in
    the modules [IndexJs] and [IndexTs].

    Conventions of the embedding.
    - A JavaScript string is the list of its UTF-16 code units.
    - [undefined] is [None]; [null] is [Some JNull].
    - The host and the libraries are not code of the repository: the
      runtime functions ([JSON.parse], [JSON.stringify], [new URL],
      [Buffer.byteLength]) are the fields of [Platform], and what one run
      finds outside (inputs, environment, git, the two remote services,
      the clock) is a [World].
    - Effects are recorded as a trace of events: subprocess calls,
      outbound requests, [core.setOutput] and [core.setFailed].  The
      diagnostics ([core.info], [core.warning], [core.error]) neither
      throw nor influence control flow and are left out. *)

From Stdlib Require Import ZArith Floats Ascii String DecimalString.
From stdpp Require Import base option list gmap.

Set Warnings "-register-all,-inexact-float,-clear-no-such-hyp".

(** ** JavaScript strings *)

Abbreviation jsstring := (list N).

(** The code units of an ASCII literal of the source. *)
Definition js (s : string) : jsstring :=
  (λ a : ascii, N_of_ascii a) <$> list_ascii_of_string s.

(** A literal of the source that contains double quotes, written here
    with an apostrophe in the place of each. *)
Definition jsq (s : string) : jsstring :=
  (λ c : N, if (c =? 39)%N then 34%N else c) <$> js s.

Definition newline : jsstring := [10%N].

(** [s.endsWith(t)] *)
Definition endsWith (s t : jsstring) : bool := bool_decide (t `suffix_of` s).

(** [s.substring(a, b)]: the arguments are swapped when [a > b] and
    clamped to the length of [s]. *)
Definition substring (s : jsstring) (a b : nat) : jsstring :=
  take (max a b - min a b) (drop (min a b) s).

(** ECMAScript [WhiteSpace] and [LineTerminator] code points, all of which
    are single code units. *)
Definition isWhiteSpace (c : N) : bool :=
  ((c =? 0x09) || (c =? 0x0A) || (c =? 0x0B) || (c =? 0x0C) || (c =? 0x0D)
   || (c =? 0x20) || (c =? 0xA0) || (c =? 0x1680)
   || ((0x2000 <=? c) && (c <=? 0x200A))
   || (c =? 0x2028) || (c =? 0x2029) || (c =? 0x202F) || (c =? 0x205F)
   || (c =? 0x3000) || (c =? 0xFEFF))%N.

Fixpoint trimStart (s : jsstring) : jsstring :=
  match s with
  | c :: s' => if isWhiteSpace c then trimStart s' else s
  | [] => []
  end.

Definition trimEnd (s : jsstring) : jsstring := reverse (trimStart (reverse s)).

(** [s.trim()] *)
Definition trim (s : jsstring) : jsstring := trimEnd (trimStart s).

(** [s.replace(/\/$/, '')]: the pattern has no [g] or [m] flag, so it can
    match one slash only, the one that ends the string. *)
Definition replace_trailing_slash (s : jsstring) : jsstring :=
  if endsWith s (js "/") then take (length s - 1) s else s.

(** [n.toString()] for an integral number. *)
Definition Number_toString (n : Z) : jsstring :=
  js (NilZero.string_of_int (Z.to_int n)).

(** [a || b] on strings: [a] unless it is empty. *)
Definition or_else (a b : jsstring) : jsstring :=
  match a with [] => b | _ => a end.

(** Truthiness of a string. *)
Definition nonempty (s : jsstring) : bool :=
  match s with [] => false | _ => true end.

(** ** JavaScript values that JSON can denote *)

Inductive json :=
| JNull
| JBool (b : bool)
| JNum (x : float)
| JStr (s : jsstring)
| JArr (items : list json)
| JObj (props : list (jsstring * json)).

(** [ToBoolean]; [undefined] is [None]. *)
Definition truthy (v : option json) : bool :=
  match v with
  | None | Some JNull => false
  | Some (JBool b) => b
  | Some (JNum x) => negb (x =? 0)%float && negb (is_nan x)
  | Some (JStr s) => nonempty s
  | Some (JArr _) | Some (JObj _) => true
  end.

(** Own property of an object built by [JSON.parse]: when the text lists a
    key twice the later entry is the one in effect. *)
Fixpoint own_property (props : list (jsstring * json)) (k : jsstring) : option json :=
  match props with
  | [] => None
  | (k', v) :: rest =>
      match own_property rest k with
      | Some v' => Some v'
      | None => if decide (k' = k) then Some v else None
      end
  end.

(** What the engine raises or a library hands to an error listener. *)
Inductive thrown :=
| SyntaxError (message : jsstring)          (* JSON.parse *)
| TypeError_nullish (property : jsstring)   (* property read on undefined or null *)
| TypeError_not_callable (property : jsstring)
| TypeError_invalid_url (input : jsstring)  (* new URL *)
| RequestError (message : jsstring)         (* 'error' event of a request *)
| ExecError (command : jsstring).           (* execSync *)

(** [v.name] for a name that no prototype defines ([choices], [message],
    [content]): only objects built from JSON text have such a property. *)
Definition member (v : option json) (name : jsstring) : thrown + option json :=
  match v with
  | None | Some JNull => inl (TypeError_nullish name)
  | Some (JObj props) => inr (own_property props name)
  | Some _ => inr None
  end.

(** [v[0]] *)
Definition first (v : option json) : thrown + option json :=
  match v with
  | None | Some JNull => inl (TypeError_nullish (js "0"))
  | Some (JArr items) => inr (head items)
  | Some (JObj props) => inr (own_property props (js "0"))
  | Some (JStr s) => inr ((λ c : N, JStr [c]) <$> head s)
  | Some _ => inr None
  end.

(** [v.trim()]: only strings have the method. *)
Definition call_trim (v : option json) : thrown + jsstring :=
  match v with
  | None | Some JNull => inl (TypeError_nullish (js "trim"))
  | Some (JStr s) => inr (trim s)
  | Some _ => inl (TypeError_not_callable (js "trim"))
  end.

(** ** Exceptions, failures and the effect monad *)

(** Code that can throw and has no other effect. *)
Definition Exc (A : Type) : Type := thrown + A.

#[global] Instance Exc_ret : MRet Exc := λ A a, inr a.
#[global] Instance Exc_bind : MBind Exc := λ A B f m,
  match m with inl e => inl e | inr a => f a end.

(** Why a promise of the program is rejected, or what [run] catches.  The
    constructors other than [Raised] are the [new Error(...)] sites of the
    source, in the order of the text. *)
Inductive failure :=
| Raised (e : thrown)             (* reject(error), or an exception passed on as it is *)
| InvalidResponseFormat           (* 'Invalid response format from BlackBox AI' *)
| FailedToParse (cause : thrown)  (* `Failed to parse BlackBox AI response: ${parseError.message}` *)
| SummaryTimeout                  (* 'BlackBox AI request timeout' *)
| RequestTimeout                  (* 'Request timeout' *)
| ApiKeyRequired                  (* 'BlackBox API key is required' *)
| NoCommitData.                   (* 'Could not retrieve commit data and no changes provided' *)

Inductive header_value :=
| HText (s : jsstring)
| HNumber (n : N).

Inductive client := Https | Http.

Module Options.
(** The [options] object handed to [request]. *)
Record t := mk {
  hostname : jsstring;
  port : jsstring + N;
  path : jsstring;
  method : jsstring;
  headers : gmap jsstring header_value
}.
End Options.

Inductive event :=
| ExecSync (command : jsstring)
| SummaryRequest (options : Options.t) (postData : jsstring)
| DeliveryRequest (c : client) (options : Options.t) (postData : jsstring)
| SetOutput (name value : jsstring)
| SetFailed (f : failure).

(** A computation: the events it caused, in order, and how it ended. *)
Record Eff (A : Type) := MkEff { trace : list event; result : failure + A }.
Arguments MkEff {A} _ _.
Arguments trace {A} _.
Arguments result {A} _.

#[global] Instance Eff_ret : MRet Eff := λ A a, MkEff [] (inr a).
#[global] Instance Eff_bind : MBind Eff := λ A B f m,
  match result m with
  | inl e => MkEff (trace m) (inl e)
  | inr a => MkEff (trace m ++ trace (f a)) (result (f a))
  end.
#[global] Instance Eff_fmap : FMap Eff := λ A B f m,
  MkEff (trace m) (match result m with inl e => inl e | inr a => inr (f a) end).

Definition emit (e : event) : Eff unit := MkEff [e] (inr tt).
Definition throw {A} (f : failure) : Eff A := MkEff [] (inl f).

(** [try { body } catch (error) { handler }] *)
Definition try_catch {A} (body : Eff A) (handler : failure → Eff A) : Eff A :=
  match result body with
  | inl e => MkEff (trace body ++ trace (handler e)) (result (handler e))
  | inr a => body
  end.

(** ** The runtime and the outside of one run *)

Module URL.
(** The fields of a parsed URL that the program reads. *)
Record t := mk {
  protocol : jsstring;
  hostname : jsstring;
  port : jsstring;
  pathname : jsstring;
  search : jsstring
}.
End URL.

Class Platform := {
  (** [JSON.parse]: the value, or the message of the [SyntaxError]. *)
  JSON_parse : jsstring → jsstring + json;
  JSON_stringify : json → jsstring;
  Buffer_byteLength : jsstring → N;
  (** [new URL(s)]; [None] when the constructor throws. *)
  URL_new : jsstring → option URL.t
}.

(** How a request ends: the response has been read to its end
    (['end'], whatever the status code), the request failed, or it stayed
    idle for the 30 seconds set by [req.setTimeout(30000)].  A failed
    request is one that emits ['error'] or that throws while it is
    created or written; either way the program hands the error to
    [reject] unchanged. *)
Inductive reply :=
| Responded (statusCode : Z) (headers : list (jsstring * jsstring)) (body : jsstring)
| Errored (message : jsstring)
| TimedOut.

(** What one run finds outside.  The inputs are the strings that
    [core.getInput] returns: trimmed by the toolkit, empty when not set. *)
Record World := {
  getInput : jsstring → jsstring;           (* core.getInput *)
  GITHUB_REPOSITORY : option jsstring;      (* process.env *)
  GITHUB_REF_NAME : option jsstring;
  execSync : jsstring → option jsstring;    (* output of a command; None when it throws *)
  toISOString_now : jsstring;               (* new Date().toISOString() *)
  summary_reply : reply;                    (* a run makes at most one request of each kind *)
  delivery_reply : reply
}.

Record CommitData := {
  message : jsstring;
  hash : jsstring;
  shortHash : jsstring;
  files : jsstring;
  diff : jsstring;
  branch : jsstring
}.

Record APIResponse := {
  statusCode : Z;
  response_headers : list (jsstring * jsstring);
  body : jsstring
}.

(** [execSync(command, { encoding: 'utf8' })] *)
Definition exec (w : World) (command : jsstring) : Eff jsstring :=
  emit (ExecSync command);;
  match execSync w command with
  | Some out => mret out
  | None => throw (Raised (ExecError command))
  end.

Definition git_log_subject : jsstring := jsq "git log -1 --pretty=format:'%s'".
Definition git_log_hash : jsstring := jsq "git log -1 --pretty=format:'%H'".
Definition git_show_name_status : jsstring := js "git show --name-status HEAD".
Definition git_show_name_only : jsstring :=
  jsq "git show HEAD --pretty=format:'' --name-only".
Definition git_branch_show_current : jsstring := js "git branch --show-current".
Definition git_rev_parse_head : jsstring := js "git rev-parse --abbrev-ref HEAD".
Definition git_remote_origin_url : jsstring := js "git config --get remote.origin.url".

(** The commands of [getCommitChanges]. *)
Definition inspector_commands : list jsstring :=
  [git_log_subject; git_log_hash; git_show_name_status; git_show_name_only;
   git_branch_show_current; git_rev_parse_head].

(** The outputs a trace leaves behind; a later [setOutput] of a name
    replaces an earlier one. *)
Definition publish (m : gmap jsstring jsstring) (e : event) : gmap jsstring jsstring :=
  match e with SetOutput k v => <[k:=v]> m | _ => m end.

Definition outputs (t : list event) : gmap jsstring jsstring := foldl publish ∅ t.

(** [core.setFailed] was called: the process exits with a non-zero code. *)
Definition failed (t : list event) : Prop := ∃ f, SetFailed f ∈ t.

Definition is_delivery_request (e : event) : bool :=
  match e with DeliveryRequest _ _ _ => true | _ => false end.

(** ** Code shared by the two variants *)

Section Shared.
Context {node : Platform}.

(** *** Summary Generator *)

Definition prompt (commitData : CommitData) : jsstring :=
  js "Analyze this git commit and provide a concise, professional summary focusing on:" ++ newline
  ++ js "- What changed (key functionality, files, features)" ++ newline
  ++ js "- Why the change was made (purpose, problem solved)" ++ newline
  ++ js "- Impact on users or system" ++ newline
  ++ newline
  ++ js "Commit Details:" ++ newline
  ++ js "- Hash: " ++ shortHash commitData ++ newline
  ++ js "- Message: " ++ message commitData ++ newline
  ++ js "- Files: " ++ files commitData ++ newline
  ++ newline
  ++ js "Provide a clear, structured summary in 2-4 bullet points.".

Definition summary_payload (commitData : CommitData) (model : jsstring) : json :=
  JObj [
    (js "model", JStr model);
    (js "messages", JArr [
      JObj [(js "role", JStr (js "system"));
            (js "content", JStr (js "You are a technical writer creating concise commit summaries for development teams."))];
      JObj [(js "role", JStr (js "user"));
            (js "content", JStr (prompt commitData))]]);
    (js "temperature", JNum 0.3%float);
    (js "max_tokens", JNum 300%float)].

Definition summary_options (postData blackboxApiKey : jsstring) : Options.t :=
  {| Options.hostname := js "api.blackbox.ai";
     Options.port := inr 443%N;
     Options.path := js "/chat/completions";
     Options.method := js "POST";
     Options.headers :=
       <[js "Content-Type" := HText (js "application/json")]>
       (<[js "Content-Length" := HNumber (Buffer_byteLength postData)]>
       (<[js "Authorization" := HText (js "Bearer " ++ blackboxApiKey)]>
       (<[js "User-Agent" := HText (js "GitHub-Action-Summarizer/1.0")]> ∅))) |}.

(** [response.choices && response.choices[0] && response.choices[0].message],
    as a condition. *)
Definition has_message (response : option json) : Exc bool :=
  choices ← member response (js "choices");
  if truthy choices then
    choice ← first choices;
    if truthy choice then
      msg ← member choice (js "message");
      mret (truthy msg)
    else mret false
  else mret false.

(** [response.choices[0].message.content.trim()] *)
Definition content_trimmed (response : option json) : Exc jsstring :=
  choices ← member response (js "choices");
  choice ← first choices;
  msg ← member choice (js "message");
  content ← member msg (js "content");
  call_trim content.

(** The body of the [try] in the ['end'] listener.  [resolve] and
    [reject] settle the promise and return; they do not throw. *)
Definition on_end_try (data : jsstring) : Exc (failure + jsstring) :=
  response ← (match JSON_parse data with
              | inl m => inl (SyntaxError m)
              | inr v => inr (Some v)
              end : Exc (option json));
  ok ← has_message response;
  if ok : bool then
    summary ← content_trimmed response;
    mret (inr summary)
  else mret (inl InvalidResponseFormat).

(** The ['end'] listener with its [catch (parseError)]. *)
Definition on_end (data : jsstring) : failure + jsstring :=
  match on_end_try data with
  | inr settled => settled
  | inl parseError => inl (FailedToParse parseError)
  end.

(** [generateSummary(commitData, blackboxApiKey, model)]: the request is
    written, then the promise is settled by whichever listener fires. *)
Definition generateSummary (w : World) (commitData : CommitData)
    (blackboxApiKey model : jsstring) : Eff jsstring :=
  let postData := JSON_stringify (summary_payload commitData model) in
  emit (SummaryRequest (summary_options postData blackboxApiKey) postData);;
  match summary_reply w with
  | Responded _ _ data => MkEff [] (on_end data)
  | Errored m => throw (Raised (RequestError m))
  | TimedOut => throw SummaryTimeout
  end.

(** *** Delivery Client: the parts the variants share *)

(** The longest prefix of code units that satisfy [p], and the rest. *)
Fixpoint span (p : N → bool) (s : jsstring) : jsstring * jsstring :=
  match s with
  | c :: s' => if p c then let '(a, b) := span p s' in (c :: a, b) else ([], s)
  | [] => ([], [])
  end.

(** [/github\.com[:/]([^/]+\/[^/.]+)/] tried at the start of [s]; the
    result is the capture group.  Both repetitions are greedy and a
    shorter first repetition would not be followed by a slash, so no
    backtracking is needed. *)
Definition match_repository_here (s : jsstring) : option jsstring :=
  if bool_decide (js "github.com" `prefix_of` s) then
    match drop 10 s with
    | sep :: rest =>
        if bool_decide (sep = 58%N ∨ sep = 47%N) then
          let '(owner, rest1) := span (λ c, negb (c =? 47)%N) rest in
          match owner, rest1 with
          | _ :: _, _ :: rest2 =>
              let '(name, _) := span (λ c, negb (c =? 47)%N && negb (c =? 46)%N) rest2 in
              match name with
              | _ :: _ => Some (owner ++ js "/" ++ name)
              | [] => None
              end
          | _, _ => None
          end
        else None
    | [] => None
    end
  else None.

(** [remoteUrl.match(...)]: the leftmost position where the pattern matches. *)
Fixpoint match_repository (s : jsstring) : option jsstring :=
  match match_repository_here s with
  | Some g => Some g
  | None => match s with [] => None | _ :: s' => match_repository s' end
  end.

(** Repository name from the environment, else from the git remote. *)
Definition repository_name (w : World) : Eff jsstring :=
  let repository := default [] (GITHUB_REPOSITORY w) in
  if nonempty repository then mret repository
  else
    try_catch
      (remoteUrl ← trim <$> exec w git_remote_origin_url;
       mret (default (js "unknown/repository") (match_repository remoteUrl)))
      (λ _, mret (js "unknown/repository")).

(** [commitData?.hash || 'unknown'] *)
Definition commit_sha (commitData : option CommitData) : jsstring :=
  or_else (default [] (hash <$> commitData)) (js "unknown").

(** [commitData?.branch || process.env.GITHUB_REF_NAME || 'unknown'] *)
Definition branch_name (w : World) (commitData : option CommitData) : jsstring :=
  or_else (or_else (default [] (branch <$> commitData))
                   (default [] (GITHUB_REF_NAME w)))
          (js "unknown").

(** The path of the delivery request:
<<
    let path = url.pathname;
    if (!path.endsWith('/generate-content')) {
      path = path.replace(/\/$/, '') + '/generate-content';
    }
    path += url.search;
>> *)
Definition normalized_pathname (pathname : jsstring) : jsstring :=
  if negb (endsWith pathname (js "/generate-content"))
  then replace_trailing_slash pathname ++ js "/generate-content"
  else pathname.

Definition request_path (url : URL.t) : jsstring :=
  normalized_pathname (URL.pathname url) ++ URL.search url.

(** [url.port || (isHttps ? 443 : 80)] *)
Definition request_port (url : URL.t) (isHttps : bool) : jsstring + N :=
  if nonempty (URL.port url) then inl (URL.port url)
  else inr (if isHttps then 443%N else 80%N).

End Shared.

(** ** [index.js] *)

Module IndexJs.

(** Repository Inspector.  The branch falls back to [git rev-parse] when
    [git branch --show-current] prints nothing; any command that throws
    ends in [null]. *)
Definition getCommitChanges (w : World) : Eff (option CommitData) :=
  try_catch
    (commitMessage ← trim <$> exec w git_log_subject;
     commitHash ← trim <$> exec w git_log_hash;
     changedFiles ← trim <$> exec w git_show_name_status;
     diffOutput ← trim <$> exec w git_show_name_only;
     current ← trim <$> exec w git_branch_show_current;
     branch ← (if nonempty current then mret current
               else trim <$> exec w git_rev_parse_head);
     mret (Some {| message := commitMessage;
                   hash := commitHash;
                   shortHash := substring commitHash 0 8;
                   files := changedFiles;
                   diff := diffOutput;
                   branch := branch |}))
    (λ _, mret None).

Section Code.
Context {node : Platform}.

Definition delivery_payload (w : World) (summary repository : jsstring)
    (commitData : option CommitData) : json :=
  JObj [
    (js "summary", JStr summary);
    (js "repository", JStr repository);
    (js "commit_sha", JStr (commit_sha commitData));
    (js "branch", JStr (branch_name w commitData));
    (js "timestamp", JStr (toISOString_now w))].

Definition delivery_options (url : URL.t) (isHttps : bool)
    (postData apiKey : jsstring) : Options.t :=
  {| Options.hostname := URL.hostname url;
     Options.port := request_port url isHttps;
     Options.path := request_path url;
     Options.method := js "POST";
     Options.headers :=
       <[js "Content-Type" := HText (js "application/json")]>
       (<[js "Content-Length" := HNumber (Buffer_byteLength postData)]>
       (<[js "Authorization" := HText (js "Bearer " ++ apiKey)]>
       (<[js "User-Agent" := HText (js "GitHub-Action-Send-Changes/1.0")]> ∅))) |}.

(** Delivery Client.  An exception raised before the request is
    written is caught and handed to [reject] as it is. *)
Definition sendToAPI (w : World) (summary apiKey apiUrl : jsstring)
    (commitData : option CommitData) : Eff APIResponse :=
  match URL_new apiUrl with
  | None => throw (Raised (TypeError_invalid_url apiUrl))
  | Some url =>
      let isHttps := bool_decide (URL.protocol url = js "https:") in
      repository ← repository_name w;
      let postData := JSON_stringify (delivery_payload w summary repository commitData) in
      emit (DeliveryRequest (if isHttps then Https else Http)
              (delivery_options url isHttps postData apiKey) postData);;
      match delivery_reply w with
      | Responded code hs data =>
          mret {| statusCode := code; response_headers := hs; body := data |}
      | Errored m => throw (Raised (RequestError m))
      | TimedOut => throw RequestTimeout
      end
  end.

Definition run (w : World) : Eff unit :=
  try_catch
    (let changes := getInput w (js "changes") in
     let blackboxApiKey := getInput w (js "blackbox-api-key") in
     let apiKey := getInput w (js "api-key") in
     let apiUrl := getInput w (js "api-url") in
     let model := or_else (getInput w (js "model")) (js "blackboxai") in
     (if nonempty blackboxApiKey then mret tt else throw ApiKeyRequired);;
     let hasApiConfig := nonempty apiKey && nonempty apiUrl in
     '(commitData, summary) ←
       (if nonempty changes then mret (None, changes)
        else
          commitData ← getCommitChanges w;
          match commitData with
          | None => throw NoCommitData
          | Some cd =>
              summary ← generateSummary w cd blackboxApiKey model;
              mret (Some cd, summary)
          end);
     emit (SetOutput (js "summary") summary);;
     if hasApiConfig then
       response ← sendToAPI w summary apiKey apiUrl commitData;
       emit (SetOutput (js "response") (body response));;
       emit (SetOutput (js "status") (Number_toString (statusCode response)))
     else
       emit (SetOutput (js "response") (js "No API configured - summary generated only"));;
       emit (SetOutput (js "status") (js "200")))
    (λ error, emit (SetFailed error)).

End Code.
End IndexJs.

(** ** The TypeScript source *)

Module IndexTs.

(** Repository Inspector.  Here the branch falls back to
    [git rev-parse] when [git branch --show-current] throws. *)
Definition getCommitChanges (w : World) : Eff (option CommitData) :=
  try_catch
    (commitMessage ← trim <$> exec w git_log_subject;
     commitHash ← trim <$> exec w git_log_hash;
     changedFiles ← trim <$> exec w git_show_name_status;
     diffOutput ← trim <$> exec w git_show_name_only;
     branch ← try_catch (trim <$> exec w git_branch_show_current)
                        (λ _, trim <$> exec w git_rev_parse_head);
     mret (Some {| message := commitMessage;
                   hash := commitHash;
                   shortHash := substring commitHash 0 8;
                   files := changedFiles;
                   diff := diffOutput;
                   branch := branch |}))
    (λ _, mret None).

Section Code.
Context {node : Platform}.

Definition delivery_payload (w : World) (summary repository : jsstring)
    (commitData : option CommitData) : json :=
  JObj [
    (js "repository", JStr repository);
    (js "commit_sha", JStr (commit_sha commitData));
    (js "branch", JStr (branch_name w commitData));
    (js "summary", JStr summary);
    (js "timestamp", JStr (toISOString_now w))].

Definition delivery_options (url : URL.t) (isHttps : bool)
    (postData : jsstring) : Options.t :=
  {| Options.hostname := URL.hostname url;
     Options.port := request_port url isHttps;
     Options.path := request_path url;
     Options.method := js "POST";
     Options.headers :=
       <[js "Content-Type" := HText (js "application/json")]>
       (<[js "Content-Length" := HNumber (Buffer_byteLength postData)]>
       (<[js "User-Agent" := HText (js "GitHub-Action-Send-Changes/1.0")]> ∅)) |}.

(** Delivery Client: no key among the parameters, and
    [statusCode: res.statusCode || 0]. *)
Definition sendToAPI (w : World) (summary apiUrl : jsstring)
    (commitData : option CommitData) : Eff APIResponse :=
  match URL_new apiUrl with
  | None => throw (Raised (TypeError_invalid_url apiUrl))
  | Some url =>
      let isHttps := bool_decide (URL.protocol url = js "https:") in
      repository ← repository_name w;
      let postData := JSON_stringify (delivery_payload w summary repository commitData) in
      emit (DeliveryRequest (if isHttps then Https else Http)
              (delivery_options url isHttps postData) postData);;
      match delivery_reply w with
      | Responded code hs data =>
          mret {| statusCode := (if (code =? 0)%Z then 0%Z else code);
                  response_headers := hs; body := data |}
      | Errored m => throw (Raised (RequestError m))
      | TimedOut => throw RequestTimeout
      end
  end.

Definition run (w : World) : Eff unit :=
  try_catch
    (let changes := getInput w (js "changes") in
     let blackboxApiKey := getInput w (js "blackbox-api-key") in
     let apiUrl := getInput w (js "api-url") in
     let model := or_else (getInput w (js "model")) (js "blackboxai") in
     (if nonempty blackboxApiKey then mret tt else throw ApiKeyRequired);;
     let hasApiConfig := nonempty apiUrl in
     '(commitData, summary) ←
       (if nonempty changes then mret (None, changes)
        else
          commitData ← getCommitChanges w;
          match commitData with
          | None => throw NoCommitData
          | Some cd =>
              summary ← generateSummary w cd blackboxApiKey model;
              mret (Some cd, summary)
          end);
     emit (SetOutput (js "summary") summary);;
     if hasApiConfig then
       response ← sendToAPI w summary apiUrl commitData;
       emit (SetOutput (js "response") (body response));;
       emit (SetOutput (js "status") (Number_toString (statusCode response)))
     else
       emit (SetOutput (js "response") (js "No API configured - summary generated only"));;
       emit (SetOutput (js "status") (js "200")))
    (λ error, emit (SetFailed error)).

End Code.
End IndexTs.

(** ** A sample runtime and sample worlds

    Enough of a runtime to evaluate the program on the inputs used in the
    examples at the end.  [JSON.parse] and [new URL] are tables of what
    Node answers on the listed texts, and reject any other text.  No
    example looks inside a request body, so the serialiser writes
    nothing. *)

Definition body_hello : jsstring :=
  jsq "{'choices':[{'message':{'content':' Hello '}}]}".
Definition body_no_choices : jsstring := jsq "{'error':'rate limited'}".
Definition body_no_message : jsstring := jsq "{'choices':[{'index':0}]}".
Definition body_no_content : jsstring := jsq "{'choices':[{'message':{'role':'assistant'}}]}".
Definition body_malformed : jsstring := js "<html>Bad Gateway</html>".
Definition body_indexed : jsstring :=
  jsq "{'choices':{'0':{'message':{'content':'ok'}}}}".

Definition sample_parse (s : jsstring) : jsstring + json :=
  if decide (s = body_hello) then
    inr (JObj [(js "choices",
                JArr [JObj [(js "message", JObj [(js "content", JStr (js " Hello "))])]])])
  else if decide (s = body_no_choices) then
    inr (JObj [(js "error", JStr (js "rate limited"))])
  else if decide (s = body_no_message) then
    inr (JObj [(js "choices", JArr [JObj [(js "index", JNum 0%float)]])])
  else if decide (s = body_no_content) then
    inr (JObj [(js "choices",
                JArr [JObj [(js "message", JObj [(js "role", JStr (js "assistant"))])]])])
  else if decide (s = body_indexed) then
    inr (JObj [(js "choices",
                JObj [(js "0", JObj [(js "message", JObj [(js "content", JStr (js "ok"))])])])])
  else inl (js "Unexpected token").

Definition sample_url (s : jsstring) : option URL.t :=
  if decide (s = js "https://x.com/a/") then
    Some (URL.mk (js "https:") (js "x.com") [] (js "/a/") [])
  else if decide (s = js "https://x.com/a/generate-content") then
    Some (URL.mk (js "https:") (js "x.com") [] (js "/a/generate-content") [])
  else if decide (s = js "https://api.example.com/changes?env=ci") then
    Some (URL.mk (js "https:") (js "api.example.com") [] (js "/changes") (js "?env=ci"))
  else if decide (s = js "http://localhost:8080") then
    Some (URL.mk (js "http:") (js "localhost") (js "8080") (js "/") [])
  else None.

(** Length in bytes of the UTF-8 encoding: a surrogate pair takes four
    bytes, a lone surrogate the three of U+FFFD. *)
Fixpoint utf8_length (s : jsstring) : N :=
  match s with
  | [] => 0
  | c :: s' =>
      if (c <? 0x80)%N then 1 + utf8_length s'
      else if (c <? 0x800)%N then 2 + utf8_length s'
      else if ((0xD800 <=? c) && (c <=? 0xDBFF))%N then
        match s' with
        | d :: s'' =>
            if ((0xDC00 <=? d) && (d <=? 0xDFFF))%N then 4 + utf8_length s''
            else 3 + utf8_length s'
        | [] => 3
        end
      else 3 + utf8_length s'
  end%N.

Definition sample_runtime : Platform :=
  {| JSON_parse := sample_parse;
     JSON_stringify := λ _, [];
     Buffer_byteLength := utf8_length;
     URL_new := sample_url |}.

(** A table read as a function; what is not listed is absent. *)
Fixpoint assoc (table : list (jsstring * jsstring)) (k : jsstring) : option jsstring :=
  match table with
  | [] => None
  | (k', v) :: rest => if decide (k' = k) then Some v else assoc rest k
  end.

Definition sample_world (inputs : list (jsstring * jsstring))
    (repository : option jsstring) (git : list (jsstring * jsstring))
    (summary delivery : reply) : World :=
  {| getInput := λ name, default [] (assoc inputs name);
     GITHUB_REPOSITORY := repository;
     GITHUB_REF_NAME := Some (js "main");
     execSync := assoc git;
     toISOString_now := js "2023-12-01T12:00:00.000Z";
     summary_reply := summary;
     delivery_reply := delivery |}.

(** A checkout with one commit on [main]. *)
Definition sample_git : list (jsstring * jsstring) :=
  [(git_log_subject, js "Fix parser");
   (git_log_hash, js "0123456789abcdef0123456789abcdef01234567" ++ newline);
   (git_show_name_status, js "M" ++ [9%N] ++ js "src/parser.js");
   (git_show_name_only, js "src/parser.js");
   (git_branch_show_current, js "main" ++ newline);
   (git_remote_origin_url, js "git@github.com:owner/repo.git" ++ newline)].

Definition full_inputs : list (jsstring * jsstring) :=
  [(js "blackbox-api-key", js "bb-key");
   (js "api-key", js "secret");
   (js "api-url", js "https://x.com/a/")].

(** Commit summarised by the backend, delivery answered with 404. *)
Definition world_404 : World :=
  sample_world full_inputs (Some (js "owner/repo")) sample_git
    (Responded 200 [] body_hello) (Responded 404 [] (js "Not Found")).

(** Summary supplied by the caller, no summarisation key. *)
Definition world_no_key : World :=
  sample_world [(js "changes", js "Bump version")] (Some (js "owner/repo")) sample_git
    (Responded 200 [] body_hello) (Responded 200 [] (js "ok")).

(** Summary supplied by the caller, delivery configured, repository name
    not in the environment. *)
Definition world_supplied : World :=
  sample_world ((js "changes", js "Bump version") :: full_inputs) None sample_git
    (Responded 200 [] body_hello) (Responded 200 [] (js "ok")).

(** Only a delivery URL, no delivery key. *)
Definition world_url_only : World :=
  sample_world [(js "changes", js "Bump version");
                (js "blackbox-api-key", js "bb-key");
                (js "api-url", js "https://x.com/a/")]
    (Some (js "owner/repo")) sample_git
    (Responded 200 [] body_hello) (Responded 200 [] (js "ok")).

(** A delivery URL without a scheme. *)
Definition world_bad_url : World :=
  sample_world [(js "changes", js "Bump version");
                (js "blackbox-api-key", js "bb-key");
                (js "api-key", js "secret");
                (js "api-url", js "api.example.com/changes")]
    (Some (js "owner/repo")) sample_git
    (Responded 200 [] body_hello) (Responded 200 [] (js "ok")).

(** No delivery configuration, not a git checkout. *)
Definition world_no_git : World :=
  sample_world [(js "blackbox-api-key", js "bb-key")] (Some (js "owner/repo")) []
    (Responded 200 [] body_hello) (Responded 200 [] (js "ok")).

(** Delivery fails on the wire. *)
Definition world_reset : World :=
  sample_world full_inputs (Some (js "owner/repo")) sample_git
    (Responded 200 [] body_hello) (Errored (js "socket hang up")).

(** The backend answers with [choices] as an object. *)
Definition world_indexed : World :=
  sample_world full_inputs (Some (js "owner/repo")) sample_git
    (Responded 200 [] body_indexed) (Responded 200 [] (js "ok")).

(** Summary supplied by the caller, nothing about delivery. *)
Definition world_no_delivery : World :=
  sample_world [(js "changes", js "Bump version"); (js "blackbox-api-key", js "bb-key")]
    (Some (js "owner/repo")) sample_git
    (Responded 200 [] body_hello) (Responded 200 [] (js "ok")).

(** The summarisation service answers 500 with a well-formed body. *)
Definition world_500 : World :=
  sample_world full_inputs (Some (js "owner/repo")) sample_git
    (Responded 500 [(js "retry-after", js "1")] body_hello) (Responded 404 [] (js "Not Found")).

(** The commit record read from [sample_git]. *)
Definition sample_commit : CommitData :=
  {| message := js "Fix parser";
     hash := js "0123456789abcdef0123456789abcdef01234567";
     shortHash := js "01234567";
     files := js "M" ++ [9%N] ++ js "src/parser.js";
     diff := js "src/parser.js";
     branch := js "main" |}.

(** ** Statements about both variants *)

Inductive variant := index_js | index_ts.

Section Variants.
Context {node : Platform}.

Definition getCommitChanges_of (v : variant) : World → Eff (option CommitData) :=
  match v with
  | index_js => IndexJs.getCommitChanges
  | index_ts => IndexTs.getCommitChanges
  end.

(** The statement [if (changes) { ... } else { ... }] of [run], on its
    own: the commit data, if any was read, and the summary. *)
Definition resolve_summary_of (v : variant) (w : World)
    : Eff (option CommitData * jsstring) :=
  if nonempty (getInput w (js "changes")) then mret (None, getInput w (js "changes"))
  else
    commitData ← getCommitChanges_of v w;
    match commitData with
    | None => throw NoCommitData
    | Some cd =>
        summary ← generateSummary w cd (getInput w (js "blackbox-api-key"))
                    (or_else (getInput w (js "model")) (js "blackboxai"));
        mret (Some cd, summary)
    end.

(** [hasApiConfig] of [run]: [apiKey && apiUrl] in [index.js], [!!apiUrl]
    in the TypeScript source. *)
Definition hasApiConfig_of (v : variant) (w : World) : bool :=
  match v with
  | index_js => nonempty (getInput w (js "api-key")) && nonempty (getInput w (js "api-url"))
  | index_ts => nonempty (getInput w (js "api-url"))
  end.

(** The same as a proposition on the inputs. *)
Definition delivery_configured (v : variant) (w : World) : Prop :=
  match v with
  | index_js => getInput w (js "api-key") ≠ [] ∧ getInput w (js "api-url") ≠ []
  | index_ts => getInput w (js "api-url") ≠ []
  end.

Definition sendToAPI_of (v : variant) (w : World) (summary : jsstring)
    (commitData : option CommitData) : Eff APIResponse :=
  match v with
  | index_js =>
      IndexJs.sendToAPI w summary (getInput w (js "api-key")) (getInput w (js "api-url")) commitData
  | index_ts =>
      IndexTs.sendToAPI w summary (getInput w (js "api-url")) commitData
  end.

Definition run_of (v : variant) : World → Eff unit :=
  match v with
  | index_js => IndexJs.run
  | index_ts => IndexTs.run
  end.

(** The request the Delivery Client of variant [v] writes for a parsed
    target [url]. *)
Definition repository_of (w : World) : jsstring :=
  match result (repository_name w) with inr r => r | inl _ => [] end.

Definition delivery_request_of (v : variant) (w : World) (url : URL.t)
    (commitData : option CommitData) (summary : jsstring) : event :=
  let isHttps := bool_decide (URL.protocol url = js "https:") in
  match v with
  | index_js =>
      let postData :=
        JSON_stringify (IndexJs.delivery_payload w summary (repository_of w) commitData) in
      DeliveryRequest (if isHttps then Https else Http)
        (IndexJs.delivery_options url isHttps postData (getInput w (js "api-key"))) postData
  | index_ts =>
      let postData :=
        JSON_stringify (IndexTs.delivery_payload w summary (repository_of w) commitData) in
      DeliveryRequest (if isHttps then Https else Http)
        (IndexTs.delivery_options url isHttps postData) postData
  end.

(** The run got past the validation of the inputs and has a summary. *)
Definition summary_resolved (v : variant) (w : World)
    (commitData : option CommitData) (summary : jsstring) : Prop :=
  getInput w (js "blackbox-api-key") ≠ [] ∧
  result (resolve_summary_of v w) = inr (commitData, summary).

(** How a request that got no response rejects the delivery promise. *)
Inductive delivery_rejection : reply → failure → Prop :=
| rejection_error m : delivery_rejection (Errored m) (Raised (RequestError m))
| rejection_timeout : delivery_rejection TimedOut RequestTimeout.

Definition placeholder : jsstring := js "No API configured - summary generated only".

(** The six ways a run can go, each with the trace it leaves. *)
Inductive run_shape (v : variant) (w : World) : list event → Prop :=
| shape_no_key :
    getInput w (js "blackbox-api-key") = [] →
    run_shape v w [SetFailed ApiKeyRequired]
| shape_unresolved f :
    getInput w (js "blackbox-api-key") ≠ [] →
    result (resolve_summary_of v w) = inl f →
    run_shape v w (trace (resolve_summary_of v w) ++ [SetFailed f])
| shape_skipped cd s :
    summary_resolved v w cd s →
    hasApiConfig_of v w = false →
    run_shape v w
      (trace (resolve_summary_of v w)
         ++ [SetOutput (js "summary") s;
             SetOutput (js "response") placeholder;
             SetOutput (js "status") (js "200")])
| shape_bad_url cd s :
    summary_resolved v w cd s →
    hasApiConfig_of v w = true →
    URL_new (getInput w (js "api-url")) = None →
    run_shape v w
      (trace (resolve_summary_of v w)
         ++ [SetOutput (js "summary") s;
             SetFailed (Raised (TypeError_invalid_url (getInput w (js "api-url"))))])
| shape_delivered cd s url code hs data :
    summary_resolved v w cd s →
    hasApiConfig_of v w = true →
    URL_new (getInput w (js "api-url")) = Some url →
    delivery_reply w = Responded code hs data →
    run_shape v w
      (trace (resolve_summary_of v w)
         ++ SetOutput (js "summary") s :: trace (repository_name w)
         ++ [delivery_request_of v w url cd s;
             SetOutput (js "response") data;
             SetOutput (js "status") (Number_toString code)])
| shape_rejected cd s url f :
    summary_resolved v w cd s →
    hasApiConfig_of v w = true →
    URL_new (getInput w (js "api-url")) = Some url →
    delivery_rejection (delivery_reply w) f →
    run_shape v w
      (trace (resolve_summary_of v w)
         ++ SetOutput (js "summary") s :: trace (repository_name w)
         ++ [delivery_request_of v w url cd s; SetFailed f]).

(** Events of the Repository Inspector and of the Summary Generator. *)
Definition resolution_event (e : event) : Prop :=
  match e with
  | ExecSync command => command ∈ inspector_commands
  | SummaryRequest _ _ => True
  | _ => False
  end.

(** The one subprocess call of the Delivery Client. *)
Definition remote_query (e : event) : Prop := e = ExecSync git_remote_origin_url.

(** What a run of variant [v] leaves in the output called [name]. *)
Definition output (v : variant) (w : World) (name : jsstring) : option jsstring :=
  outputs (trace (run_of v w)) !! name.

Definition delivery_request_made (v : variant) (w : World) : Prop :=
  ∃ c o d, DeliveryRequest c o d ∈ trace (run_of v w).

(** *** Why a run aborts *)

Definition missing_required_config (w : World) : Prop :=
  getInput w (js "blackbox-api-key") = [].

Definition extraction_failure (v : variant) (w : World) : Prop :=
  getInput w (js "changes") = [] ∧ result (getCommitChanges_of v w) = inr None.

Definition summarization_failure (v : variant) (w : World) : Prop :=
  getInput w (js "changes") = [] ∧
  ∃ cd f,
    result (getCommitChanges_of v w) = inr (Some cd) ∧
    result (generateSummary w cd (getInput w (js "blackbox-api-key"))
              (or_else (getInput w (js "model")) (js "blackboxai"))) = inl f.

Definition delivery_transport_failure (w : World) : Prop :=
  ∃ m, delivery_reply w = Errored m.

Definition delivery_timeout (w : World) : Prop := delivery_reply w = TimedOut.

Definition delivery_url_rejected (w : World) : Prop :=
  URL_new (getInput w (js "api-url")) = None.

(** *** Shapes of the summarisation response *)

(** In the words of the specification: a non-empty [choices] array whose
    first element has a [message.content] string. *)
Definition spec_response_shape (v : json) (content : jsstring) : Prop :=
  ∃ props fields rest msg,
    v = JObj props ∧
    own_property props (js "choices") = Some (JArr (JObj fields :: rest)) ∧
    own_property fields (js "message") = Some (JObj msg) ∧
    own_property msg (js "content") = Some (JStr content).

(** What the ['end'] listener accepts: [choices] may also be an object
    with a property named [0]. *)
Definition accepted_response_shape (v : json) (content : jsstring) : Prop :=
  ∃ props choices fields msg,
    v = JObj props ∧
    own_property props (js "choices") = Some choices ∧
    ((∃ rest, choices = JArr (JObj fields :: rest)) ∨
     (∃ entries, choices = JObj entries ∧
                 own_property entries (js "0") = Some (JObj fields))) ∧
    own_property fields (js "message") = Some (JObj msg) ∧
    own_property msg (js "content") = Some (JStr content).

(** The two rejections of the ['end'] listener. *)
Definition shape_failure (f : failure) : Prop :=
  f = InvalidResponseFormat ∨ ∃ cause, f = FailedToParse cause.

Definition transport_or_timeout (f : failure) : Prop :=
  (∃ m, f = Raised (RequestError m)) ∨ f = SummaryTimeout ∨ f = RequestTimeout.

End Variants.

(** The URL whose path is replaced, as when the normalised target is
    given to the action again. *)
Definition with_pathname (url : URL.t) (pathname : jsstring) : URL.t :=
  URL.mk (URL.protocol url) (URL.hostname url) (URL.port url) pathname (URL.search url).

(** [new URL("https://x.com/a/")] *)
Definition url_x_com_a : URL.t := URL.mk (js "https:") (js "x.com") [] (js "/a/") [].

(** ** Further vocabulary *)

(** The first four commands of [getCommitChanges] all succeed. *)
Definition commit_readable (w : World) : Prop :=
  is_Some (execSync w git_log_subject) ∧ is_Some (execSync w git_log_hash) ∧
  is_Some (execSync w git_show_name_status) ∧ is_Some (execSync w git_show_name_only).

(** How many events of a trace satisfy [p]. *)
Definition occurrences (p : event → bool) (t : list event) : nat :=
  length (List.filter p t).

(** Two events of the same kind: the same command, a request to the same
    service, the same output, or two failures. *)
Definition same_kind (e1 e2 : event) : bool :=
  match e1, e2 with
  | ExecSync c1, ExecSync c2 => bool_decide (c1 = c2)
  | SummaryRequest _ _, SummaryRequest _ _ => true
  | DeliveryRequest _ _ _, DeliveryRequest _ _ _ => true
  | SetOutput k1 _, SetOutput k2 _ => bool_decide (k1 = k2)
  | SetFailed _, SetFailed _ => true
  | _, _ => false
  end.


(** The options of a request with the [Authorization] header taken out. *)
Definition without_authorization (o : Options.t) : Options.t :=
  {| Options.hostname := Options.hostname o;
     Options.port := Options.port o;
     Options.path := Options.path o;
     Options.method := Options.method o;
     Options.headers := delete (js "Authorization") (Options.headers o) |}.


Section Stages.
Context {node : Platform}.

(** What [run] does after it has published the summary [s]: the events
    of the statement [if (hasApiConfig) { ... } else { ... }] and of the
    [catch] that follows a rejection. *)
Definition delivery_events (v : variant) (w : World)
    (cd : option CommitData) (s : jsstring) : list event :=
  if hasApiConfig_of v w then
    match URL_new (getInput w (js "api-url")) with
    | None => [SetFailed (Raised (TypeError_invalid_url (getInput w (js "api-url"))))]
    | Some url =>
        trace (repository_name w) ++
        delivery_request_of v w url cd s ::
        match delivery_reply w with
        | Responded code _ data =>
            [SetOutput (js "response") data; SetOutput (js "status") (Number_toString code)]
        | Errored m => [SetFailed (Raised (RequestError m))]
        | TimedOut => [SetFailed RequestTimeout]
        end
    end
  else [SetOutput (js "response") placeholder; SetOutput (js "status") (js "200")].

End Stages.

(** ** Tactics *)

Ltac eff :=
  unfold mbind, mret, fmap, Eff_bind, Eff_ret, Eff_fmap, try_catch, emit, throw, exec;
  cbn [trace result].

(** Finds an event in a trace that ends in a literal list. *)
Ltac in_trace :=
  repeat first
    [ apply list_elem_of_here
    | apply list_elem_of_further
    | apply elem_of_app; right ].

(** Case analysis on where in a trace an event is. *)
Ltac split_members :=
  repeat match goal with
    | H : _ ∈ _ ++ _ |- _ => rewrite elem_of_app in H
    | H : _ ∈ _ :: _ |- _ => rewrite elem_of_cons in H
    | H : _ ∈ [] |- _ => rewrite elem_of_nil in H
    | H : _ ∨ _ |- _ => destruct H
    | H : False |- _ => destruct H
    end.

(** The same in the trace of a run, given the lemmas that say what the
    events of the summary stage and of the repository lookup are. *)
Ltac locate_with resolution repository :=
  repeat first
    [ progress split_members
    | match goal with
      | H : _ ∈ trace (resolve_summary_of _ _) |- _ => apply resolution in H
      | H : _ ∈ trace (repository_name _) |- _ => apply repository in H
      end ].

(** One command of the Repository Inspector: it throws, which ends the
    extraction, or the extraction goes on with its output.  [unfolding]
    is the lemma that says so. *)
Ltac step_exec_with unfolding c :=
  rewrite (unfolding _ _ c);
  match goal with
  | |- context [execSync ?w c] => destruct (execSync w c) as [?out|]
  end; cbn [trace result app]; [|reflexivity].

(** Case analysis on the outcome of the first five commands, in order. *)
Ltac case_commands w :=
  destruct (execSync w git_log_subject) as [subject|] eqn:Esubject;
  [destruct (execSync w git_log_hash) as [full|] eqn:Ehash;
   [destruct (execSync w git_show_name_status) as [status|] eqn:Estatus;
    [destruct (execSync w git_show_name_only) as [names|] eqn:Enames;
     [destruct (execSync w git_branch_show_current) as [b|] eqn:Ebranch|]|]|]|].

(** The Repository Inspector of variant [v], command by command, given
    the two lemmas that unfold it. *)
Ltac unfold_extraction_with unfolded_js unfolded_ts v :=
  destruct v; cbn [getCommitChanges_of];
  [rewrite unfolded_js | rewrite unfolded_ts];
  cbv zeta; unfold inspector_commands; cbn [fmap list_fmap].

(** * Properties *)

Section Proofs.
Context {node : Platform}.

#[local] Arguments js : simpl never.
#[local] Arguments trim : simpl never.

Lemma nonempty_true s : nonempty s = true ↔ s ≠ [].
Proof. destruct s; simpl; split; congruence. Qed.

Lemma nonempty_false s : nonempty s = false ↔ s = [].
Proof. destruct s; simpl; split; congruence. Qed.

(** ** Traces and results of composed computations *)

Section Traces.
Context (P : event → Prop).

Lemma Forall_trace_bind {A B} (m : Eff A) (f : A → Eff B) :
  Forall P (trace m) → (∀ a, Forall P (trace (f a))) → Forall P (trace (m ≫= f)).
Proof.
  intros Hm Hf. unfold mbind, Eff_bind.
  destruct (result m); cbn; [done|]. by apply Forall_app_2.
Qed.

Lemma Forall_trace_fmap {A B} (g : A → B) (m : Eff A) :
  Forall P (trace m) → Forall P (trace (g <$> m)).
Proof. done. Qed.

Lemma Forall_trace_try_catch {A} (m : Eff A) h :
  Forall P (trace m) → (∀ e, Forall P (trace (h e))) → Forall P (trace (try_catch m h)).
Proof.
  intros Hm Hh. unfold try_catch.
  destruct (result m); cbn; [|done]. by apply Forall_app_2.
Qed.

Lemma Forall_trace_ret {A} (a : A) : Forall P (trace (mret a)).
Proof. constructor. Qed.

Lemma Forall_trace_exec w c : P (ExecSync c) → Forall P (trace (exec w c)).
Proof.
  intros Hc. unfold exec. apply Forall_trace_bind.
  - by repeat constructor.
  - intros _. destruct (execSync w c); constructor.
Qed.
End Traces.

Lemma try_catch_total {A} (m : Eff A) h :
  (∀ e, ∃ a, result (h e) = inr a) → ∃ a, result (try_catch m h) = inr a.
Proof.
  intros Hh. unfold try_catch. destruct (result m) as [e|a] eqn:E; cbn; [apply Hh|].
  rewrite E. by eexists.
Qed.

Lemma result_bind_inr {A B} (m : Eff A) (f : A → Eff B) b :
  result (m ≫= f) = inr b → ∃ a, result m = inr a ∧ result (f a) = inr b.
Proof. unfold mbind, Eff_bind. destruct (result m); cbn; [done|eauto]. Qed.

Lemma result_fmap_inr {A B} (g : A → B) (m : Eff A) b :
  result (g <$> m) = inr b → ∃ a, result m = inr a ∧ b = g a.
Proof. unfold fmap, Eff_fmap. cbn. destruct (result m); naive_solver. Qed.

Lemma result_try_catch_inr {A} (m : Eff A) h b :
  result (try_catch m h) = inr b →
  result m = inr b ∨ ∃ e, result m = inl e ∧ result (h e) = inr b.
Proof. unfold try_catch. destruct (result m) eqn:E; cbn; [eauto|]. rewrite E. auto. Qed.

Lemma result_exec_inr w c out :
  result (exec w c) = inr out → execSync w c = Some out.
Proof. eff. destruct (execSync w c); cbn; congruence. Qed.

Lemma Exc_bind_inr {A B} (m : Exc A) (f : A → Exc B) b :
  m ≫= f = inr b → ∃ a, m = inr a ∧ f a = inr b.
Proof. destruct m; [done|]. eauto. Qed.

(** ** Repository Inspector *)

Lemma getCommitChanges_result v w : ∃ r, result (getCommitChanges_of v w) = inr r.
Proof. destruct v; apply try_catch_total; intros _; by eexists. Qed.

Lemma inspector_command_event c : c ∈ inspector_commands → resolution_event (ExecSync c).
Proof. done. Qed.

Lemma getCommitChanges_trace v w : Forall resolution_event (trace (getCommitChanges_of v w)).
Proof.
  destruct v; cbn [getCommitChanges_of];
    unfold IndexJs.getCommitChanges, IndexTs.getCommitChanges.
  all: repeat first
    [ apply Forall_trace_exec | apply Forall_trace_ret
    | apply Forall_trace_try_catch | apply Forall_trace_fmap | apply Forall_trace_bind
    | intros ?
    | match goal with |- Forall _ (trace (if ?b then _ else _)) => destruct b end ].
  all: apply inspector_command_event; unfold inspector_commands; set_solver.
Qed.

Lemma getCommitChanges_hashes v w cd :
  result (getCommitChanges_of v w) = inr (Some cd) →
  shortHash cd = substring (hash cd) 0 8 ∧
  ∃ out, execSync w git_log_hash = Some out ∧ hash cd = trim out.
Proof.
  destruct v; cbn [getCommitChanges_of];
    unfold IndexJs.getCommitChanges, IndexTs.getCommitChanges.
  all: intros [Hbody|(e & _ & Hh)]%result_try_catch_inr; [|done].
  all: apply result_bind_inr in Hbody as (commitMessage & _ & Hbody).
  all: apply result_bind_inr in Hbody as (commitHash & Hhash & Hbody).
  all: apply result_fmap_inr in Hhash as (out & Hout%result_exec_inr & ->).
  all: repeat (apply result_bind_inr in Hbody as (? & _ & Hbody)).
  all: cbn in Hbody; simplify_eq; cbn; eauto.
Qed.

Lemma substring_from_start (s : jsstring) n : substring s 0 n = take n s.
Proof. unfold substring. by rewrite Nat.max_0_l, Nat.min_0_l, Nat.sub_0_r. Qed.

(** C8.  Every commit record that [getCommitChanges] returns, in either
    variant, has a [shortHash] that is a prefix of its [hash]: the first
    8 code units when the hash has at least 8, the whole hash when it is
    shorter. *)
Theorem shortHash_prefix_of_hash v w cd :
  result (getCommitChanges_of v w) = inr (Some cd) →
  shortHash cd `prefix_of` hash cd ∧
  (8 ≤ length (hash cd) →
     shortHash cd = take 8 (hash cd) ∧ length (shortHash cd) = 8) ∧
  (length (hash cd) < 8 → shortHash cd = hash cd).
Proof.
  intros [-> _]%getCommitChanges_hashes. rewrite substring_from_start. split_and!.
  - apply prefix_take.
  - intros Hlen. split; [done|]. by apply length_take_le.
  - intros Hlen. apply take_ge. lia.
Qed.

(** ** Summary Generator *)

Lemma generateSummary_trace w cd key model :
  Forall resolution_event (trace (generateSummary w cd key model)).
Proof.
  unfold generateSummary. apply Forall_trace_bind; [by repeat constructor|].
  intros _. destruct (summary_reply w); constructor.
Qed.

Lemma generateSummary_responded w cd key model code hs data :
  summary_reply w = Responded code hs data →
  result (generateSummary w cd key model) = on_end data.
Proof. intros H. unfold generateSummary. eff. by rewrite H. Qed.

Lemma on_end_unparsed data m :
  JSON_parse data = inl m → on_end data = inl (FailedToParse (SyntaxError m)).
Proof. intros H. unfold on_end, on_end_try. by rewrite H. Qed.

Lemma on_end_accepted data v content :
  JSON_parse data = inr v → accepted_response_shape v content →
  on_end data = inr (trim content).
Proof.
  intros Hp (props & choices & fields & msg & -> & Hc & Hfirst & Hm & Hcontent).
  unfold on_end, on_end_try, has_message, content_trimmed. rewrite Hp. cbn.
  rewrite Hc.
  destruct Hfirst as [[rest ->]|(entries & -> & H0)]; cbn; rewrite ?H0; cbn;
    rewrite Hm; cbn; by rewrite Hcontent.
Qed.

(** From the first element of [choices] on, the array and the object
    case go the same way. *)
Lemma first_choice_accepted props choices (choice : option json) s :
  own_property props (js "choices") = Some choices →
  first (Some choices) = inr choice →
  (if truthy choice
   then member choice (js "message") ≫= λ msg, mret (truthy msg)
   else mret false) = inr true →
  (member choice (js "message") ≫= λ msg,
     member msg (js "content") ≫= λ content, call_trim content) = inr s →
  ∃ fields msg content,
    choice = Some (JObj fields) ∧
    own_property fields (js "message") = Some (JObj msg) ∧
    own_property msg (js "content") = Some (JStr content) ∧
    s = trim content.
Proof.
  intros _ _ Hok Hs.
  destruct choice as [[| | | | |fields]|]; cbn in Hok, Hs; try done.
  destruct (own_property fields (js "message")) as [[| | | | |ms]|] eqn:Hm;
    cbn in Hok, Hs; try done.
  destruct (own_property ms (js "content")) as [[| | |c| |]|] eqn:Hcontent;
    cbn in Hs; try done.
  simplify_eq. by exists fields, ms, c.
Qed.

Lemma on_end_accepts data s :
  on_end data = inr s →
  ∃ v content, JSON_parse data = inr v ∧ accepted_response_shape v content ∧ s = trim content.
Proof.
  unfold on_end. destruct (on_end_try data) as [e|[g|s']] eqn:E; intros ?; simplify_eq.
  unfold on_end_try in E.
  destruct (JSON_parse data) as [m|v]; [done|]. cbn in E.
  apply Exc_bind_inr in E as ([] & Hok & E); [|done].
  apply Exc_bind_inr in E as (s' & Hs & E).
  unfold mret, Exc_ret in E. simplify_eq.
  unfold has_message in Hok. unfold content_trimmed in Hs.
  destruct v as [| | | | |props]; try done. cbn in Hok, Hs.
  destruct (own_property props (js "choices")) as [choices|] eqn:Hc; [|done].
  assert (∃ choice, first (Some choices) = inr choice) as [choice Hfirst].
  { destruct choices; cbn; eauto. done. }
  rewrite Hfirst in Hs. cbn in Hs.
  destruct (truthy (Some choices)); [|done]. rewrite Hfirst in Hok. cbn in Hok.
  destruct (first_choice_accepted _ _ _ _ Hc Hfirst Hok Hs)
    as (fields & msg & content & -> & Hm & Hcontent & ->).
  exists (JObj props), content. split; [done|]. split; [|done].
  exists props, choices, fields, msg. split_and!; try done.
  destruct choices as [| | |t|items|entries]; cbn in Hfirst; simplify_eq.
  - destruct t; done.
  - left. destruct items; simplify_eq/=. eauto.
  - right. eauto.
Qed.

Lemma on_end_failure data f : on_end data = inl f → shape_failure f.
Proof.
  unfold on_end, shape_failure.
  destruct (on_end_try data) as [e|[g|s]] eqn:E; intros ?; simplify_eq; [eauto|].
  left. unfold on_end_try in E.
  apply Exc_bind_inr in E as (response & _ & E).
  apply Exc_bind_inr in E as ([] & _ & E).
  - apply Exc_bind_inr in E as (summary & _ & E). done.
  - by injection E.
Qed.

Lemma on_end_no_choices data props :
  JSON_parse data = inr (JObj props) → own_property props (js "choices") = None →
  on_end data = inl InvalidResponseFormat.
Proof.
  intros Hp Hc. unfold on_end, on_end_try, has_message. rewrite Hp. cbn. by rewrite Hc.
Qed.

Lemma on_end_no_message data props fields rest :
  JSON_parse data = inr (JObj props) →
  own_property props (js "choices") = Some (JArr (JObj fields :: rest)) →
  own_property fields (js "message") = None →
  on_end data = inl InvalidResponseFormat.
Proof.
  intros Hp Hc Hm. unfold on_end, on_end_try, has_message. rewrite Hp. cbn.
  rewrite Hc. cbn. by rewrite Hm.
Qed.

Lemma on_end_no_content data props fields rest msg :
  JSON_parse data = inr (JObj props) →
  own_property props (js "choices") = Some (JArr (JObj fields :: rest)) →
  own_property fields (js "message") = Some (JObj msg) →
  own_property msg (js "content") = None →
  on_end data = inl (FailedToParse (TypeError_nullish (js "trim"))).
Proof.
  intros Hp Hc Hm Hcontent.
  unfold on_end, on_end_try, has_message, content_trimmed. rewrite Hp. cbn.
  rewrite Hc. cbn. rewrite Hm. cbn. by rewrite Hcontent.
Qed.

Lemma spec_shape_accepted v content :
  spec_response_shape v content → accepted_response_shape v content.
Proof.
  intros (props & fields & rest & msg & -> & Hc & Hm & Hcontent).
  exists props. eexists. exists fields, msg. split_and!; eauto.
Qed.

(** C5, amended.  When the summarisation request is answered,
    [generateSummary] resolves exactly when the body parses as a JSON
    object whose [choices] is an array, or an object with a property [0],
    whose first element is an object with a [message] object that holds a
    [content] string; it resolves with that string trimmed.  The shape of
    the specification (a non-empty [choices] array) is accepted.  Every
    rejection is one of the two rejections of the ['end'] listener and
    never a transport error or a timeout: malformed JSON and missing
    [content] give "Failed to parse", missing [choices] and missing
    [message] give "Invalid response format". *)
Theorem summary_response_handling w cd key model code hs data :
  summary_reply w = Responded code hs data →
  let outcome := result (generateSummary w cd key model) in
  (∀ s, outcome = inr s ↔
        ∃ v content, JSON_parse data = inr v ∧ accepted_response_shape v content ∧
                     s = trim content) ∧
  (∀ v content, JSON_parse data = inr v → spec_response_shape v content →
                outcome = inr (trim content)) ∧
  (∀ f, outcome = inl f → shape_failure f ∧ ¬ transport_or_timeout f) ∧
  (∀ m, JSON_parse data = inl m → outcome = inl (FailedToParse (SyntaxError m))) ∧
  (∀ props, JSON_parse data = inr (JObj props) →
     own_property props (js "choices") = None →
     outcome = inl InvalidResponseFormat) ∧
  (∀ props fields rest, JSON_parse data = inr (JObj props) →
     own_property props (js "choices") = Some (JArr (JObj fields :: rest)) →
     own_property fields (js "message") = None →
     outcome = inl InvalidResponseFormat) ∧
  (∀ props fields rest msg, JSON_parse data = inr (JObj props) →
     own_property props (js "choices") = Some (JArr (JObj fields :: rest)) →
     own_property fields (js "message") = Some (JObj msg) →
     own_property msg (js "content") = None →
     outcome = inl (FailedToParse (TypeError_nullish (js "trim")))).
Proof.
  intros Hreply. cbv zeta. rewrite (generateSummary_responded _ _ _ _ _ _ _ Hreply).
  split_and!.
  - intros s. split; [apply on_end_accepts|].
    intros (v & content & Hp & Hshape & ->). by eapply on_end_accepted.
  - intros v content Hp Hshape%spec_shape_accepted. by eapply on_end_accepted.
  - intros f Hf%on_end_failure. split; [done|].
    unfold transport_or_timeout. destruct Hf as [->|[cause ->]]; naive_solver.
  - apply on_end_unparsed.
  - apply on_end_no_choices.
  - apply on_end_no_message.
  - apply on_end_no_content.
Qed.

(** ** Path normalisation *)

Lemma endsWith_true s t : endsWith s t = true ↔ t `suffix_of` s.
Proof. unfold endsWith. apply bool_decide_eq_true. Qed.

Lemma endsWith_false s t : endsWith s t = false ↔ ¬ t `suffix_of` s.
Proof. unfold endsWith. apply bool_decide_eq_false. Qed.

Lemma normalized_pathname_suffix p :
  js "/generate-content" `suffix_of` normalized_pathname p.
Proof.
  unfold normalized_pathname.
  destruct (endsWith p _) eqn:E; cbn.
  - by apply endsWith_true.
  - by apply suffix_app_r.
Qed.

Lemma normalized_pathname_fixed p :
  js "/generate-content" `suffix_of` p → normalized_pathname p = p.
Proof. intros H%endsWith_true. unfold normalized_pathname. by rewrite H. Qed.

Lemma replace_trailing_slash_stem stem :
  replace_trailing_slash (stem ++ js "/") = stem.
Proof.
  unfold replace_trailing_slash.
  rewrite (proj2 (endsWith_true _ _)) by (by apply suffix_app_r).
  rewrite length_app. change (length (js "/")) with 1.
  rewrite Nat.add_sub. by rewrite take_app_length.
Qed.

Lemma replace_trailing_slash_none p :
  ¬ js "/" `suffix_of` p → replace_trailing_slash p = p.
Proof. intros H%endsWith_false. unfold replace_trailing_slash. by rewrite H. Qed.

Lemma request_path_cases url :
  let p := URL.pathname url in
  let q := URL.search url in
  (js "/generate-content" `suffix_of` p → request_path url = p ++ q) ∧
  (¬ js "/generate-content" `suffix_of` p →
     (∀ stem, p = stem ++ js "/" →
        request_path url = stem ++ js "/generate-content" ++ q) ∧
     (¬ js "/" `suffix_of` p →
        request_path url = p ++ js "/generate-content" ++ q)).
Proof.
  cbv zeta. unfold request_path, normalized_pathname. split.
  - intros H%endsWith_true. by rewrite H.
  - intros H%endsWith_false. rewrite H. cbn [negb]. split.
    + intros stem ->. by rewrite replace_trailing_slash_stem, <- app_assoc.
    + intros Hs. by rewrite replace_trailing_slash_none, <- app_assoc.
Qed.

(** C6.  Normalising a path that is already normalised changes nothing,
    for every URL, with or without a query string.  For
    [https://x.com/a/] the request path is [/a/generate-content], and
    normalising the URL with that path gives [/a/generate-content]
    again: the segment is there once. *)
Theorem path_normalization_idempotent (url : URL.t) :
  normalized_pathname (normalized_pathname (URL.pathname url))
    = normalized_pathname (URL.pathname url) ∧
  request_path (with_pathname url (normalized_pathname (URL.pathname url)))
    = request_path url ∧
  request_path url_x_com_a = js "/a/generate-content" ∧
  request_path (with_pathname url_x_com_a (normalized_pathname (URL.pathname url_x_com_a)))
    = js "/a/generate-content".
Proof.
  split_and!.
  - apply normalized_pathname_fixed, normalized_pathname_suffix.
  - unfold request_path. cbn.
    by rewrite (normalized_pathname_fixed _ (normalized_pathname_suffix _)).
  - by vm_compute.
  - by vm_compute.
Qed.

(** ** Delivery Client *)

Lemma repository_name_result w : ∃ r, result (repository_name w) = inr r.
Proof.
  unfold repository_name.
  destruct (nonempty _); [by eexists|].
  eff. destruct (execSync w git_remote_origin_url); cbn; by eexists.
Qed.

Lemma repository_name_trace w : Forall remote_query (trace (repository_name w)).
Proof.
  unfold repository_name.
  destruct (nonempty _); [constructor|].
  eff. destruct (execSync w git_remote_origin_url); cbn; repeat constructor.
Qed.

Lemma repository_name_env w e :
  e ∈ trace (repository_name w) → default [] (GITHUB_REPOSITORY w) = [].
Proof.
  unfold repository_name. destruct (default [] (GITHUB_REPOSITORY w)); [done|].
  cbn. by intros ?%elem_of_nil.
Qed.

Lemma remote_query_not_inspector : git_remote_origin_url ∉ inspector_commands.
Proof.
  unfold inspector_commands.
  by rewrite !elem_of_cons, elem_of_nil; intros [|[|[|[|[|[|]]]]]].
Qed.

Lemma sendToAPI_parsed v w s cd url :
  URL_new (getInput w (js "api-url")) = Some url →
  trace (sendToAPI_of v w s cd) = trace (repository_name w) ++ [delivery_request_of v w url cd s]
  ∧ match delivery_reply w with
    | Responded code hs data =>
        ∃ r, result (sendToAPI_of v w s cd) = inr r ∧ statusCode r = code ∧ body r = data
    | other => ∃ f, result (sendToAPI_of v w s cd) = inl f ∧ delivery_rejection other f
    end.
Proof.
  intros Hurl.
  destruct (repository_name_result w) as [r Hr].
  destruct v; cbn [sendToAPI_of delivery_request_of];
    unfold IndexJs.sendToAPI, IndexTs.sendToAPI, repository_of; rewrite Hurl; eff; rewrite Hr.
  all: destruct (delivery_reply w) as [code hs data|m|]; cbn [trace result app].
  all: rewrite ?app_nil_r; split; first done.
  all: eexists; (split; first done); try constructor; try done.
  cbn. by destruct (Z.eqb_spec code 0).
Qed.

Lemma sendToAPI_unparsed v w s cd :
  URL_new (getInput w (js "api-url")) = None →
  sendToAPI_of v w s cd = throw (Raised (TypeError_invalid_url (getInput w (js "api-url")))).
Proof.
  intros Hurl. destruct v; cbn [sendToAPI_of];
    unfold IndexJs.sendToAPI, IndexTs.sendToAPI; by rewrite Hurl.
Qed.

Lemma delivery_request_is v w url cd s :
  ∃ c o d, delivery_request_of v w url cd s = DeliveryRequest c o d.
Proof. destruct v; cbn; eauto. Qed.

(** ** The summary stage *)

Lemma resolve_summary_trace v w : Forall resolution_event (trace (resolve_summary_of v w)).
Proof.
  unfold resolve_summary_of. destruct (nonempty _); [constructor|].
  apply Forall_trace_bind; [apply getCommitChanges_trace|].
  intros [cd|]; [|constructor].
  apply Forall_trace_bind; [apply generateSummary_trace | intros; constructor].
Qed.

Lemma resolve_summary_supplied v w :
  getInput w (js "changes") ≠ [] →
  resolve_summary_of v w = mret (None, getInput w (js "changes")).
Proof. intros Hc%nonempty_true. unfold resolve_summary_of. by rewrite Hc. Qed.

Lemma resolve_failure_cause v w f :
  result (resolve_summary_of v w) = inl f →
  extraction_failure v w ∨ summarization_failure v w.
Proof.
  destruct (decide (getInput w (js "changes") = [])) as [Hc|Hc].
  2: { by rewrite (resolve_summary_supplied _ _ Hc). }
  unfold resolve_summary_of. rewrite (proj2 (nonempty_false _) Hc).
  destruct (getCommitChanges_result v w) as [[cd|] Hr]; eff; rewrite Hr; cbn [result].
  - destruct (result (generateSummary _ _ _ _)) as [g|] eqn:Hg; [|done].
    intros _. right. split; [done|]. by exists cd, g.
  - intros _. by left.
Qed.

Lemma extraction_failure_unresolved v w :
  extraction_failure v w → ∃ f, result (resolve_summary_of v w) = inl f.
Proof.
  intros [Hc Hr]. unfold resolve_summary_of. rewrite (proj2 (nonempty_false _) Hc).
  eff. rewrite Hr. by eexists.
Qed.

Lemma summarization_failure_unresolved v w :
  summarization_failure v w → ∃ f, result (resolve_summary_of v w) = inl f.
Proof.
  intros (Hc & cd & f & Hr & Hg). unfold resolve_summary_of.
  rewrite (proj2 (nonempty_false _) Hc).
  eff. rewrite Hr. cbn [result]. rewrite Hg. by eexists.
Qed.

(** ** The shape of a run *)

Lemma run_stages (key : jsstring) (R : Eff (option CommitData * jsstring))
    (D : option CommitData → jsstring → Eff unit) :
  trace (try_catch
           ((if nonempty key then mret tt else throw ApiKeyRequired);;
            '(commitData, summary) ← R;
            emit (SetOutput (js "summary") summary);;
            D commitData summary)
           (λ error, emit (SetFailed error)))
  = if nonempty key then
      match result R with
      | inl f => trace R ++ [SetFailed f]
      | inr (cd, s) =>
          trace R ++ SetOutput (js "summary") s :: trace (D cd s)
            ++ match result (D cd s) with inl f => [SetFailed f] | inr _ => [] end
      end
    else [SetFailed ApiKeyRequired].
Proof.
  destruct (nonempty key); [|done]. eff.
  destruct (result R) as [f|[cd s]]; cbn; [done|].
  destruct (result (D cd s)); cbn; by rewrite <- ?app_assoc, ?app_nil_r.
Qed.

Lemma publish_response (S : Eff APIResponse) :
  let D := (response ← S;
            emit (SetOutput (js "response") (body response));;
            emit (SetOutput (js "status") (Number_toString (statusCode response)))) in
  match result S with
  | inl f => trace D = trace S ∧ result D = inl f
  | inr r =>
      trace D = trace S ++ [SetOutput (js "response") (body r);
                            SetOutput (js "status") (Number_toString (statusCode r))]
      ∧ result D = inr tt
  end.
Proof. eff. by destruct (result S). Qed.

(** [run], in either variant, is the two stages in sequence. *)
Lemma run_of_stages v w :
  run_of v w =
    try_catch
      ((if nonempty (getInput w (js "blackbox-api-key")) then mret tt
        else throw ApiKeyRequired);;
       '(commitData, summary) ← resolve_summary_of v w;
       emit (SetOutput (js "summary") summary);;
       (λ commitData summary,
          if hasApiConfig_of v w then
            response ← sendToAPI_of v w summary commitData;
            emit (SetOutput (js "response") (body response));;
            emit (SetOutput (js "status") (Number_toString (statusCode response)))
          else
            emit (SetOutput (js "response") placeholder);;
            emit (SetOutput (js "status") (js "200"))) commitData summary)
      (λ error, emit (SetFailed error)).
Proof. by destruct v. Qed.

Lemma run_has_shape v w : run_shape v w (trace (run_of v w)).
Proof.
  rewrite run_of_stages, run_stages.
  destruct (nonempty (getInput w (js "blackbox-api-key"))) eqn:Hkey.
  2: { apply nonempty_false in Hkey. by constructor. }
  apply nonempty_true in Hkey.
  destruct (result (resolve_summary_of v w)) as [f|[cd s]] eqn:Hres.
  { by constructor. }
  assert (Hs : summary_resolved v w cd s) by done.
  destruct (hasApiConfig_of v w) eqn:Hcfg.
  2: { eapply shape_skipped; eauto. }
  pose proof (publish_response (sendToAPI_of v w s cd)) as Hpub. cbv zeta in Hpub.
  destruct (URL_new (getInput w (js "api-url"))) as [url|] eqn:Hurl.
  2: { rewrite (sendToAPI_unparsed _ _ _ _ Hurl) in *. eapply shape_bad_url; eauto. }
  destruct (sendToAPI_parsed v w s cd url Hurl) as [Ht Hr].
  destruct (delivery_reply w) as [code hs data|m|] eqn:Hreply.
  - destruct Hr as (r & Hr & <- & <-). rewrite Hr in Hpub. destruct Hpub as [-> ->].
    rewrite Ht, <- !app_assoc. cbn. eapply shape_delivered; eauto.
  - destruct Hr as (f & Hr & Hf). rewrite Hr in Hpub. destruct Hpub as [-> ->].
    rewrite Ht, <- !app_assoc. cbn. eapply shape_rejected; eauto. by rewrite Hreply.
  - destruct Hr as (f & Hr & Hf). rewrite Hr in Hpub. destruct Hpub as [-> ->].
    rewrite Ht, <- !app_assoc. cbn. eapply shape_rejected; eauto. by rewrite Hreply.
Qed.

Lemma in_resolution v w e : e ∈ trace (resolve_summary_of v w) → resolution_event e.
Proof. apply Forall_forall, resolve_summary_trace. Qed.

Lemma in_repository w e : e ∈ trace (repository_name w) → e = ExecSync git_remote_origin_url.
Proof. apply (proj1 (Forall_forall remote_query _)), repository_name_trace. Qed.

(** Only two shapes contain a delivery request. *)
Lemma shape_with_request v w t c o d :
  run_shape v w t → DeliveryRequest c o d ∈ t →
  ∃ cd s url tail,
    summary_resolved v w cd s ∧ hasApiConfig_of v w = true ∧
    URL_new (getInput w (js "api-url")) = Some url ∧
    DeliveryRequest c o d = delivery_request_of v w url cd s ∧
    t = trace (resolve_summary_of v w)
          ++ SetOutput (js "summary") s :: trace (repository_name w)
          ++ delivery_request_of v w url cd s :: tail ∧
    ((∃ code hs data, delivery_reply w = Responded code hs data ∧
        tail = [SetOutput (js "response") data;
                SetOutput (js "status") (Number_toString code)]) ∨
     (∃ f, delivery_rejection (delivery_reply w) f ∧ tail = [SetFailed f])).
Proof.
  intros Hshape Hin.
  destruct Hshape; locate_with in_resolution in_repository; try done.
  - exists cd, s, url. eexists. split_and!; eauto 10.
  - exists cd, s, url. eexists. split_and!; eauto 10.
Qed.

Lemma request_in_trace t c o d :
  DeliveryRequest c o d ∈ t → existsb is_delivery_request t = true.
Proof.
  intros Hin. apply existsb_exists. exists (DeliveryRequest c o d).
  split; [by apply list_elem_of_In|done].
Qed.

Lemma before_split {A} (l1 : list A) x l2 t1 e t2 :
  l1 ++ x :: l2 = t1 ++ e :: t2 → e ∉ l1 → e ≠ x → x ∈ t1.
Proof.
  revert t1. induction l1 as [|a l1 IH]; intros [|b t1] Heq Hnot Hne; simplify_eq/=.
  - by left.
  - destruct Hnot. by left.
  - right. eapply IH; eauto. intros ?. apply Hnot. by right.
Qed.

Lemma rejection_cause w f :
  delivery_rejection (delivery_reply w) f →
  delivery_transport_failure w ∨ delivery_timeout w.
Proof.
  unfold delivery_transport_failure, delivery_timeout.
  inversion 1; [left; by eexists | by right].
Qed.

Lemma unconfigured_without_url v w :
  getInput w (js "api-url") = [] → hasApiConfig_of v w = false.
Proof. intros Hu. destruct v; cbn; rewrite Hu; cbn; by rewrite ?andb_false_r. Qed.

Lemma hasApiConfig_true v w :
  hasApiConfig_of v w = true ↔ delivery_configured v w.
Proof.
  destruct v; cbn.
  - by rewrite andb_true_iff, !nonempty_true.
  - by rewrite nonempty_true.
Qed.

(** ** Outputs *)

Lemma publish_quiet (P : event → Prop) t m :
  (∀ e, P e → ∀ k x, e ≠ SetOutput k x) → Forall P t → foldl publish m t = m.
Proof.
  intros HP Ht. revert m. induction Ht as [|e t He _ IH]; intros m; [done|].
  cbn. rewrite IH. destruct e; try done. by destruct (HP _ He name value).
Qed.

Lemma resolution_quiet e : resolution_event e → ∀ k x, e ≠ SetOutput k x.
Proof. by destruct e. Qed.

Lemma remote_query_quiet e : remote_query e → ∀ k x, e ≠ SetOutput k x.
Proof. by intros ->. Qed.

Lemma outputs_resolved v w k s t :
  outputs (trace (resolve_summary_of v w) ++ SetOutput k s :: t)
  = foldl publish (<[k:=s]> ∅) t.
Proof.
  unfold outputs. rewrite foldl_app.
  by rewrite (publish_quiet _ _ _ resolution_quiet (resolve_summary_trace v w)).
Qed.

Lemma publish_repository w m t :
  foldl publish m (trace (repository_name w) ++ t) = foldl publish m t.
Proof.
  rewrite foldl_app.
  by rewrite (publish_quiet _ _ _ remote_query_quiet (repository_name_trace w)).
Qed.

Lemma outputs_delivery v w url cd s k x (rest : list event) :
  outputs (trace (resolve_summary_of v w)
             ++ SetOutput k x :: trace (repository_name w)
             ++ delivery_request_of v w url cd s :: rest)
  = foldl publish (<[k:=x]> ∅) rest.
Proof.
  rewrite outputs_resolved, publish_repository.
  by destruct (delivery_request_is v w url cd s) as (c & o & d & ->).
Qed.

Lemma output_names_distinct :
  js "summary" ≠ js "response" ∧ js "summary" ≠ js "status" ∧ js "response" ≠ js "status".
Proof. by repeat split. Qed.

Lemma lookup_published3 (a b c : jsstring) :
  let m : gmap jsstring jsstring :=
    <[js "status" := c]> (<[js "response" := b]> (<[js "summary" := a]> ∅)) in
  m !! js "summary" = Some a ∧ m !! js "response" = Some b ∧ m !! js "status" = Some c.
Proof.
  destruct output_names_distinct as (H1 & H2 & H3). cbv zeta.
  repeat split; by simplify_map_eq.
Qed.

Lemma lookup_published1 (a : jsstring) :
  let m : gmap jsstring jsstring := <[js "summary" := a]> ∅ in
  m !! js "summary" = Some a ∧ m !! js "response" = None ∧ m !! js "status" = None.
Proof.
  destruct output_names_distinct as (H1 & H2 & H3). cbv zeta.
  repeat split; by simplify_map_eq.
Qed.

Lemma resolved_summary_output v w cd s :
  summary_resolved v w cd s → output v w (js "summary") = Some s.
Proof.
  unfold output. pose proof (run_has_shape v w) as Hshape.
  intros [Hkey Hres].
  destruct Hshape as [?|? ? Hf|? ? [_ Hr] _|? ? [_ Hr] _ _
                     |? ? ? ? ? ? [_ Hr] _ _ _|? ? ? ? [_ Hr] _ _ _];
    try congruence; rewrite Hres in Hr; simplify_eq.
  - rewrite outputs_resolved. apply lookup_published3.
  - rewrite outputs_resolved. apply lookup_published1.
  - rewrite outputs_delivery. apply lookup_published3.
  - rewrite outputs_delivery. apply lookup_published1.
Qed.

(** ** The pipeline *)

(** C1, amended.  When a delivery request is answered, whatever the
    status code, the run does not fail, the [status] output is the code
    as a decimal string and the [response] output is the body received.
    A run fails exactly when the summarisation key is missing, the commit
    cannot be read, the summary cannot be generated, or delivery is
    configured and the target URL does not parse, the request reports an
    error or it times out. *)
Theorem non_success_status_is_soft v w :
  (∀ c o d code hs data,
     DeliveryRequest c o d ∈ trace (run_of v w) →
     delivery_reply w = Responded code hs data →
     ¬ failed (trace (run_of v w)) ∧
     output v w (js "status") = Some (Number_toString code) ∧
     output v w (js "response") = Some data) ∧
  (failed (trace (run_of v w)) ↔
     missing_required_config w ∨ extraction_failure v w ∨ summarization_failure v w ∨
     (hasApiConfig_of v w = true ∧
      (delivery_url_rejected w ∨ delivery_transport_failure w ∨ delivery_timeout w))).
Proof.
  unfold output, failed. pose proof (run_has_shape v w) as Hshape. split.
  - intros c o d code hs data Hin Hreply.
    destruct (shape_with_request _ _ _ _ _ _ Hshape Hin)
      as (cd & s & url & tail & _ & _ & _ & Hreq & -> & Htail).
    destruct Htail as [(code' & hs' & data' & Hreply' & ->)|(f & Hrej & ->)].
    2: { rewrite Hreply in Hrej. inversion Hrej. }
    rewrite Hreply in Hreply'. simplify_eq.
    rewrite outputs_delivery. cbn [foldl publish].
    destruct (lookup_published3 s data' (Number_toString code')) as (_ & -> & ->).
    split_and!; try done.
    intros [f Hf]. rewrite <- Hreq in Hf. locate_with in_resolution in_repository; done.
  - split.
    + intros [g Hg].
      destruct Hshape as [?|f ? Hf|? ? ? ?|? ? ? ? ?|? ? ? ? ? ? ? ? ? ?|? ? ? ? ? ? ? Hrej].
      * by left.
      * destruct (resolve_failure_cause _ _ _ Hf); auto.
      * locate_with in_resolution in_repository; done.
      * do 3 right. split; [done|]. by left.
      * destruct (delivery_request_is v w url cd s) as (c & o & d & Hreq).
        rewrite Hreq in Hg. locate_with in_resolution in_repository; done.
      * do 3 right. split; [done|]. right. by eapply rejection_cause.
    + intros Hcause. unfold missing_required_config in Hcause.
      destruct Hshape as [?|f ? Hf|? ? [Hk Hr] Hcfg|? ? ? ? ?
                         |? ? url ? ? ? [Hk Hr] Hcfg Hurl Hreply|? ? ? f ? ? ? Hrej];
        try solve [eexists; in_trace].
      * destruct Hcause as [?|[[? Hr']%extraction_failure_unresolved
                              |[[? Hr']%summarization_failure_unresolved|[? _]]]];
          congruence.
      * unfold delivery_url_rejected, delivery_transport_failure, delivery_timeout in Hcause.
        destruct Hcause as [?|[[? Hr']%extraction_failure_unresolved
                              |[[? Hr']%summarization_failure_unresolved|[_ [?|[[? ?]|?]]]]]];
          congruence.
Qed.

(** C2, amended.  A delivery request is made exactly when the run has
    resolved a summary, delivery is configured and the target URL parses.
    Configured means a non-empty key and a non-empty URL in [index.js],
    and a non-empty URL alone in the TypeScript source, which does not
    read the key. *)
Theorem delivery_attempted_iff v w :
  delivery_request_made v w ↔
    (∃ cd s, summary_resolved v w cd s) ∧
    delivery_configured v w ∧
    is_Some (URL_new (getInput w (js "api-url"))).
Proof.
  unfold delivery_request_made. pose proof (run_has_shape v w) as Hshape. split.
  - intros (c & o & d & Hin).
    destruct (shape_with_request _ _ _ _ _ _ Hshape Hin)
      as (cd & s & url & tail & Hs & Hcfg%hasApiConfig_true & Hurl & _).
    split_and!; eauto.
  - intros ((cd & s & Hk & Hr) & Hcfg%hasApiConfig_true & [url Hurl]).
    destruct Hshape as [?|f ? Hf|? ? _ ?|? ? ? ? ?
                       |? ? url' ? ? ? _ _ _ _|? ? url' ? _ _ _ _]; try congruence.
    all: destruct (delivery_request_is v w url' cd0 s0) as (c & o & d & ->).
    all: exists c, o, d; in_trace.
Qed.

(** C3, amended.  When [changes] is supplied, no command of the
    Repository Inspector runs and no summarisation request is made; the
    only subprocess call left is the Delivery Client's query of the git
    remote, made when the environment names no repository.  If the
    summarisation key is present, the [summary] output is the supplied
    value, code unit for code unit. *)
Theorem supplied_summary_bypasses_generation v w :
  getInput w (js "changes") ≠ [] →
  (∀ e, e ∈ trace (run_of v w) → ¬ resolution_event e) ∧
  (∀ command, ExecSync command ∈ trace (run_of v w) →
     command = git_remote_origin_url ∧ default [] (GITHUB_REPOSITORY w) = []) ∧
  (getInput w (js "blackbox-api-key") ≠ [] →
     output v w (js "summary") = Some (getInput w (js "changes"))).
Proof.
  intros Hc. pose proof (resolve_summary_supplied v w Hc) as Hres.
  pose proof (run_has_shape v w) as Hshape. split_and!.
  - intros e Hin He.
    destruct Hshape; rewrite ?Hres in Hin; cbn [trace mret Eff_ret app] in Hin.
    all: try destruct (delivery_request_is v w url cd s) as (c & o & d & Hreq);
      try rewrite Hreq in Hin.
    all: locate_with in_resolution in_repository; subst; try done.
    all: by apply remote_query_not_inspector.
  - intros command Hin.
    destruct Hshape; rewrite ?Hres in Hin; cbn [trace mret Eff_ret app] in Hin.
    all: try destruct (delivery_request_is v w url cd s) as (c & o & d & Hreq);
      try rewrite Hreq in Hin.
    all: repeat first
           [ progress split_members
           | match goal with
             | H : _ ∈ trace (repository_name _) |- _ =>
                 pose proof (repository_name_env _ _ H); apply in_repository in H
             end ];
         simplify_eq; done.
  - intros Hk. apply (resolved_summary_output v w None). split; [done|]. by rewrite Hres.
Qed.

(** C4, amended.  Without a delivery URL no delivery request is made, in
    any run; and a run that has resolved a summary then completes without
    failure, with [status] set to "200" and [response] to the fixed
    placeholder. *)
Theorem delivery_skipped_without_url v w :
  getInput w (js "api-url") = [] →
  ¬ delivery_request_made v w ∧
  (∀ cd s, summary_resolved v w cd s →
     ¬ failed (trace (run_of v w)) ∧
     output v w (js "status") = Some (js "200") ∧
     output v w (js "response") = Some placeholder).
Proof.
  intros Hcfg%(unconfigured_without_url v).
  unfold delivery_request_made, output, failed.
  pose proof (run_has_shape v w) as Hshape. split.
  - intros (c & o & d & Hin).
    destruct (shape_with_request _ _ _ _ _ _ Hshape Hin) as (? & ? & ? & ? & _ & ? & _).
    congruence.
  - intros cd s [Hk Hr].
    destruct Hshape as [?|f ? Hf|? ? _ _|? ? ? ? ?|? ? ? ? ? ? ? ? ? ?|? ? ? ? ? ? ? ?];
      try congruence.
    rewrite outputs_resolved. cbn [foldl publish].
    destruct (lookup_published3 s0 placeholder (js "200")) as (_ & -> & ->).
    split_and!; try done. intros [f Hf]. locate_with in_resolution in_repository; done.
Qed.

(** C7.  The path of every delivery request is computed from the parsed
    target URL: a pathname that ends with [/generate-content] is kept as
    it is; otherwise a trailing slash, if there is one, is removed and
    [/generate-content] is appended; in all cases the query string of the
    URL follows. *)
Theorem delivery_path_normalized v w c o d :
  DeliveryRequest c o d ∈ trace (run_of v w) →
  ∃ url, URL_new (getInput w (js "api-url")) = Some url ∧
    let p := URL.pathname url in
    let q := URL.search url in
    (js "/generate-content" `suffix_of` p → Options.path o = p ++ q) ∧
    (¬ js "/generate-content" `suffix_of` p →
       (∀ stem, p = stem ++ js "/" →
          Options.path o = stem ++ js "/generate-content" ++ q) ∧
       (¬ js "/" `suffix_of` p →
          Options.path o = p ++ js "/generate-content" ++ q)).
Proof.
  intros Hin.
  destruct (shape_with_request _ _ _ _ _ _ (run_has_shape v w) Hin)
    as (cd & s & url & tail & _ & _ & Hurl & Hreq & _).
  exists url. split; [done|].
  assert (Options.path o = request_path url) as -> by (destruct v; by simplify_eq/=).
  apply request_path_cases.
Qed.

Lemma header_names_distinct :
  js "Content-Type" ≠ js "Content-Length" ∧ js "Content-Type" ≠ js "Authorization" ∧
  js "Content-Type" ≠ js "User-Agent" ∧ js "Content-Length" ≠ js "Authorization" ∧
  js "Content-Length" ≠ js "User-Agent" ∧ js "Authorization" ≠ js "User-Agent".
Proof. by repeat split. Qed.

(** C9, amended.  Every delivery request carries the content type, the
    byte length of its body and the user agent.  In [index.js] the
    delivery key is then non-empty and the request also carries
    [Authorization: Bearer <key>]; in the TypeScript source no request
    carries an [Authorization] header, whatever the [api-key] input. *)
Theorem delivery_request_headers v w c o d :
  DeliveryRequest c o d ∈ trace (run_of v w) →
  Options.headers o !! js "Content-Type" = Some (HText (js "application/json")) ∧
  Options.headers o !! js "Content-Length" = Some (HNumber (Buffer_byteLength d)) ∧
  Options.headers o !! js "User-Agent" = Some (HText (js "GitHub-Action-Send-Changes/1.0")) ∧
  match v with
  | index_js =>
      getInput w (js "api-key") ≠ [] ∧
      Options.headers o !! js "Authorization"
        = Some (HText (js "Bearer " ++ getInput w (js "api-key")))
  | index_ts => Options.headers o !! js "Authorization" = None
  end.
Proof.
  intros Hin.
  destruct (shape_with_request _ _ _ _ _ _ (run_has_shape v w) Hin)
    as (cd & s & url & tail & _ & Hcfg%hasApiConfig_true & _ & Hreq & _).
  destruct header_names_distinct as (H1 & H2 & H3 & H4 & H5 & H6).
  destruct v; cbn in Hreq, Hcfg; simplify_eq;
    cbn [Options.headers IndexJs.delivery_options IndexTs.delivery_options].
  - destruct Hcfg. split_and!; by simplify_map_eq.
  - split_and!; by simplify_map_eq.
Qed.

(** C10.  A run that has resolved a summary publishes it as the
    [summary] output, and in the trace of every run that output comes
    before any delivery request.  So when a delivery request was made and
    ended in a transport error or a timeout, the run fails with
    [summary] set and with [response] and [status] never set. *)
Theorem summary_published_before_delivery v w :
  (∀ cd s, summary_resolved v w cd s → output v w (js "summary") = Some s) ∧
  (∀ t1 t2 c o d,
     trace (run_of v w) = t1 ++ DeliveryRequest c o d :: t2 →
     ∃ s, SetOutput (js "summary") s ∈ t1) ∧
  (∀ c o d,
     DeliveryRequest c o d ∈ trace (run_of v w) →
     delivery_transport_failure w ∨ delivery_timeout w →
     failed (trace (run_of v w)) ∧
     is_Some (output v w (js "summary")) ∧
     output v w (js "response") = None ∧
     output v w (js "status") = None).
Proof.
  pose proof (run_has_shape v w) as Hshape. split_and!.
  - apply resolved_summary_output.
  - intros t1 t2 c o d Heq.
    assert (Hin : DeliveryRequest c o d ∈ trace (run_of v w)).
    { rewrite Heq. apply elem_of_app. right. left. }
    destruct (shape_with_request _ _ _ _ _ _ Hshape Hin)
      as (cd & s & url & tail & _ & _ & _ & _ & Ht & _).
    exists s. rewrite Ht in Heq. eapply before_split; [exact Heq| |done].
    by intros ?%in_resolution.
  - intros c o d Hin Hfail. unfold output.
    destruct (shape_with_request _ _ _ _ _ _ Hshape Hin)
      as (cd & s & url & tail & _ & _ & _ & _ & -> & Htail).
    destruct Htail as [(code & hs & data & Hreply & _)|(f & Hrej & ->)].
    { destruct Hfail as [[m Hm]|Ht]; [|red in Ht]; congruence. }
    rewrite outputs_delivery. cbn [foldl publish].
    destruct (lookup_published1 s) as (-> & -> & ->).
    split_and!; eauto. exists f. in_trace.
Qed.

(** * Beyond the claims *)

#[local] Arguments jsq : simpl never.

(** ** Commit extraction, command by command *)

Lemma exec_then {A} w c (f : jsstring → Eff A) :
  (trim <$> exec w c) ≫= f =
    match execSync w c with
    | Some out => MkEff (ExecSync c :: trace (f (trim out))) (result (f (trim out)))
    | None => MkEff [ExecSync c] (inl (Raised (ExecError c)))
    end.
Proof. eff. by destruct (execSync w c). Qed.

Lemma exec_alone w c :
  trim <$> exec w c =
    match execSync w c with
    | Some out => MkEff [ExecSync c] (inr (trim out))
    | None => MkEff [ExecSync c] (inl (Raised (ExecError c)))
    end.
Proof. eff. by destruct (execSync w c). Qed.

(** [getCommitChanges] of [index.js], command by command. *)
Lemma getCommitChanges_js_unfolded w :
  IndexJs.getCommitChanges w =
    let run_ l := ExecSync <$> l in
    match execSync w git_log_subject with
    | None => MkEff (run_ [git_log_subject]) (inr None)
    | Some subject =>
    match execSync w git_log_hash with
    | None => MkEff (run_ [git_log_subject; git_log_hash]) (inr None)
    | Some full =>
    match execSync w git_show_name_status with
    | None => MkEff (run_ [git_log_subject; git_log_hash; git_show_name_status]) (inr None)
    | Some status =>
    match execSync w git_show_name_only with
    | None =>
        MkEff (run_ [git_log_subject; git_log_hash; git_show_name_status;
                     git_show_name_only]) (inr None)
    | Some names =>
    let record b :=
      {| message := trim subject; hash := trim full;
         shortHash := substring (trim full) 0 8;
         files := trim status; diff := trim names; branch := b |} in
    match execSync w git_branch_show_current with
    | None =>
        MkEff (run_ [git_log_subject; git_log_hash; git_show_name_status;
                     git_show_name_only; git_branch_show_current]) (inr None)
    | Some b =>
        if nonempty (trim b) then
          MkEff (run_ [git_log_subject; git_log_hash; git_show_name_status;
                       git_show_name_only; git_branch_show_current])
            (inr (Some (record (trim b))))
        else
          MkEff (run_ inspector_commands)
            (inr (record ∘ trim <$> execSync w git_rev_parse_head))
    end end end end end.
Proof.
  unfold IndexJs.getCommitChanges, try_catch, inspector_commands. cbv zeta.
  cbn [fmap list_fmap].
  step_exec_with @exec_then git_log_subject. step_exec_with @exec_then git_log_hash.
  step_exec_with @exec_then git_show_name_status. step_exec_with @exec_then git_show_name_only.
  step_exec_with @exec_then git_branch_show_current.
  destruct (nonempty (trim out3)); [reflexivity|].
  rewrite exec_alone. by destruct (execSync w git_rev_parse_head).
Qed.

(** [getCommitChanges] of the TypeScript source, command by command. *)
Lemma getCommitChanges_ts_unfolded w :
  IndexTs.getCommitChanges w =
    let run_ l := ExecSync <$> l in
    match execSync w git_log_subject with
    | None => MkEff (run_ [git_log_subject]) (inr None)
    | Some subject =>
    match execSync w git_log_hash with
    | None => MkEff (run_ [git_log_subject; git_log_hash]) (inr None)
    | Some full =>
    match execSync w git_show_name_status with
    | None => MkEff (run_ [git_log_subject; git_log_hash; git_show_name_status]) (inr None)
    | Some status =>
    match execSync w git_show_name_only with
    | None =>
        MkEff (run_ [git_log_subject; git_log_hash; git_show_name_status;
                     git_show_name_only]) (inr None)
    | Some names =>
    let record b :=
      {| message := trim subject; hash := trim full;
         shortHash := substring (trim full) 0 8;
         files := trim status; diff := trim names; branch := b |} in
    match execSync w git_branch_show_current with
    | Some b =>
        MkEff (run_ [git_log_subject; git_log_hash; git_show_name_status;
                     git_show_name_only; git_branch_show_current])
          (inr (Some (record (trim b))))
    | None =>
        MkEff (run_ inspector_commands)
          (inr (record ∘ trim <$> execSync w git_rev_parse_head))
    end end end end end.
Proof.
  unfold IndexTs.getCommitChanges, try_catch, inspector_commands. cbv zeta.
  cbn [fmap list_fmap].
  step_exec_with @exec_then git_log_subject. step_exec_with @exec_then git_log_hash.
  step_exec_with @exec_then git_show_name_status. step_exec_with @exec_then git_show_name_only.
  rewrite exec_alone.
  destruct (execSync w git_branch_show_current); [reflexivity|].
  cbn [trace result]. rewrite exec_alone. by destruct (execSync w git_rev_parse_head).
Qed.

Lemma commands_distinct : NoDup (git_remote_origin_url :: inspector_commands).
Proof. unfold inspector_commands. apply (bool_decide_unpack _). by vm_compute. Qed.

(** X1.  [getCommitChanges] never throws, and it returns [null] exactly
    when a command it needs throws: one of the first four, or the branch
    query with no fallback that succeeds.  In [index.js] a branch query
    that throws is not recovered; in the TypeScript source it is. *)
Theorem getCommitChanges_null_iff v w :
  (∃ r, result (getCommitChanges_of v w) = inr r) ∧
  (result (getCommitChanges_of v w) = inr None ↔
     ¬ commit_readable w ∨
     match v with
     | index_js =>
         execSync w git_branch_show_current = None ∨
         (∃ b, execSync w git_branch_show_current = Some b ∧ trim b = [] ∧
               execSync w git_rev_parse_head = None)
     | index_ts =>
         execSync w git_branch_show_current = None ∧ execSync w git_rev_parse_head = None
     end).
Proof.
  split; [apply getCommitChanges_result|].
  unfold commit_readable. unfold_extraction_with getCommitChanges_js_unfolded getCommitChanges_ts_unfolded v; case_commands w; cbn [result].
  all: try (split; [intros _; left; intros (?&?&?&?);
                    by repeat match goal with H : is_Some None |- _ => destruct H end
                   |done]).
  all: try destruct (nonempty (trim b)) eqn:Hb; cbn [result];
    try apply nonempty_true in Hb; try apply nonempty_false in Hb.
  all: try destruct (execSync w git_rev_parse_head) as [r|] eqn:Er; cbn.
  all: split; try done; try naive_solver.
  all: intros [H|H]; [destruct H; by split_and!|naive_solver].
Qed.

(** X2.  The fields of a commit record are the trimmed outputs of the
    commands; the branch is the output of the query, or of the fallback
    when the query prints nothing ([index.js]) or throws (TypeScript). *)
Theorem getCommitChanges_record v w cd :
  result (getCommitChanges_of v w) = inr (Some cd) →
  ∃ subject full status names,
    execSync w git_log_subject = Some subject ∧ message cd = trim subject ∧
    execSync w git_log_hash = Some full ∧ hash cd = trim full ∧
    execSync w git_show_name_status = Some status ∧ files cd = trim status ∧
    execSync w git_show_name_only = Some names ∧ diff cd = trim names ∧
    match v with
    | index_js =>
        ∃ b, execSync w git_branch_show_current = Some b ∧
          ((trim b ≠ [] ∧ branch cd = trim b) ∨
           (trim b = [] ∧ ∃ r, execSync w git_rev_parse_head = Some r ∧ branch cd = trim r))
    | index_ts =>
        (∃ b, execSync w git_branch_show_current = Some b ∧ branch cd = trim b) ∨
        (execSync w git_branch_show_current = None ∧
         ∃ r, execSync w git_rev_parse_head = Some r ∧ branch cd = trim r)
    end.
Proof.
  unfold_extraction_with getCommitChanges_js_unfolded getCommitChanges_ts_unfolded v; case_commands w; cbn [result]; try done.
  all: try destruct (nonempty (trim b)) eqn:Hb; cbn [result];
    try apply nonempty_true in Hb; try apply nonempty_false in Hb.
  all: try destruct (execSync w git_rev_parse_head) as [r|] eqn:Er; cbn; try done.
  all: intros [= <-]; cbn; exists subject, full, status, names; split_and!; eauto 10.
Qed.

(** X3.  The fallback [git rev-parse --abbrev-ref HEAD] runs exactly when
    the four commands before it succeeded and the branch query printed
    only white space ([index.js]) or threw (TypeScript). *)
Theorem branch_fallback_runs_iff v w :
  ExecSync git_rev_parse_head ∈ trace (getCommitChanges_of v w) ↔
    commit_readable w ∧
    match v with
    | index_js => ∃ b, execSync w git_branch_show_current = Some b ∧ trim b = []
    | index_ts => execSync w git_branch_show_current = None
    end.
Proof.
  unfold commit_readable. unfold_extraction_with getCommitChanges_js_unfolded getCommitChanges_ts_unfolded v; case_commands w; cbn [trace].
  all: try destruct (nonempty (trim b)) eqn:Hb; cbn [trace];
    try apply nonempty_true in Hb; try apply nonempty_false in Hb.
  all: split;
    [ intros H; try (split_and!; by eauto); split_members; simplify_eq
    | intros [(?&?&?&?) ?]; try in_trace;
      repeat match goal with H : is_Some None |- _ => destruct H end; naive_solver ].
Qed.

Lemma extraction_trace_prefix v w :
  trace (getCommitChanges_of v w) `prefix_of` ExecSync <$> inspector_commands.
Proof.
  unfold_extraction_with getCommitChanges_js_unfolded getCommitChanges_ts_unfolded v;
    case_commands w; cbn [trace].
  all: try destruct (nonempty (trim b)); cbn [trace]; by eexists.
Qed.


(** X5.  The Repository Inspectors of the two sources do the same and
    return the same exactly when one of the first four commands throws
    or the branch query prints a name. *)
Theorem getCommitChanges_variants_agree w :
  IndexJs.getCommitChanges w = IndexTs.getCommitChanges w ↔
    ¬ commit_readable w ∨
    ∃ b, execSync w git_branch_show_current = Some b ∧ trim b ≠ [].
Proof.
  rewrite getCommitChanges_js_unfolded, getCommitChanges_ts_unfolded.
  unfold commit_readable, inspector_commands. cbv zeta. cbn [fmap list_fmap].
  case_commands w.
  all: try (split; [intros _; left; intros (?&?&?&?);
                    by repeat match goal with H : is_Some None |- _ => destruct H end
                   |done]).
  - destruct (nonempty (trim b)) eqn:Hb.
    + apply nonempty_true in Hb. split; [|done]. intros _. right. eauto.
    + apply nonempty_false in Hb. split; [by intros [=]|].
      intros [H|(? & [= <-] & ?)]; [|done]. destruct H. by split_and!.
  - split; [by intros [=]|].
    intros [H|(? & [=] & ?)]. destruct H. by split_and!.
Qed.

(** ** The repository pattern *)

Lemma span_spec p s :
  ∃ a b, span p s = (a, b) ∧ s = a ++ b ∧ Forall (λ c, p c = true) a ∧
         (b = [] ∨ ∃ c b', b = c :: b' ∧ p c = false).
Proof.
  induction s as [|c s (a & b & Hs & -> & Ha & Hb)]; cbn.
  - exists [], []. auto.
  - destruct (p c) eqn:Hc.
    + rewrite Hs. exists (c :: a), b. split_and!; auto.
    + exists [], (c :: a ++ b). split_and!; eauto.
Qed.

Lemma span_app p a post :
  Forall (λ c, p c = true) a →
  (post = [] ∨ ∃ c post', post = c :: post' ∧ p c = false) →
  span p (a ++ post) = (a, post).
Proof.
  intros Ha Hpost. induction Ha as [|c a Hc _ IH]; cbn.
  - destruct Hpost as [->|(c & post' & -> & Hc)]; cbn; [done|]. by rewrite Hc.
  - by rewrite Hc, IH.
Qed.

Lemma github_literal : js "github.com" = [103; 105; 116; 104; 117; 98; 46; 99; 111; 109]%N.
Proof. reflexivity. Qed.

Lemma match_repository_here_sound s g :
  match_repository_here s = Some g →
  ∃ sep owner name post,
    s = js "github.com" ++ sep :: owner ++ 47%N :: name ++ post ∧
    (sep = 58%N ∨ sep = 47%N) ∧
    g = owner ++ js "/" ++ name ∧
    owner ≠ [] ∧ name ≠ [] ∧
    Forall (λ c, c ≠ 47%N) owner ∧ Forall (λ c, c ≠ 47%N ∧ c ≠ 46%N) name ∧
    (post = [] ∨ ∃ c post', post = c :: post' ∧ (c = 47%N ∨ c = 46%N)).
Proof.
  unfold match_repository_here.
  destruct (bool_decide _) eqn:Hp; [|done].
  apply bool_decide_eq_true in Hp as [k ->].
  rewrite github_literal. cbn [drop app].
  destruct k as [|sep rest]; [done|]. cbn [drop].
  case_bool_decide as Hsep; [|done].
  destruct (span_spec (λ c, negb (c =? 47)%N) rest)
    as (owner & rest1 & -> & -> & Howner & Hrest1).
  destruct owner as [|o owner]; [done|].
  destruct rest1 as [|slash rest2]; [done|].
  destruct Hrest1 as [|(c & b' & [= <- <-] & Hslash)]; [done|].
  apply negb_false_iff, N.eqb_eq in Hslash as ->.
  destruct (span_spec (λ c, negb (c =? 47)%N && negb (c =? 46)%N) rest2)
    as (name & post & -> & -> & Hname & Hpost).
  destruct name as [|n name]; [done|]. intros [= <-].
  exists sep, (o :: owner), (n :: name), post. split_and!; try done.
  - eapply Forall_impl; [exact Howner|]. cbn. intros c Hc ->. done.
  - eapply Forall_impl; [exact Hname|]. cbn.
    intros c [H1 H2]%andb_true_iff. split; intros ->; done.
  - destruct Hpost as [->|(c & post' & -> & Hc)]; [by left|right].
    exists c, post'. split; [done|].
    apply andb_false_iff in Hc as [Hc|Hc]; apply negb_false_iff, N.eqb_eq in Hc; auto.
Qed.

Lemma match_repository_here_complete sep owner name post :
  (sep = 58%N ∨ sep = 47%N) →
  owner ≠ [] → name ≠ [] →
  Forall (λ c, c ≠ 47%N) owner → Forall (λ c, c ≠ 47%N ∧ c ≠ 46%N) name →
  (post = [] ∨ ∃ c post', post = c :: post' ∧ (c = 47%N ∨ c = 46%N)) →
  match_repository_here (js "github.com" ++ sep :: owner ++ 47%N :: name ++ post)
  = Some (owner ++ js "/" ++ name).
Proof.
  intros Hsep Ho Hn Howner Hname Hpost. unfold match_repository_here.
  rewrite bool_decide_eq_true_2 by (by eexists).
  rewrite github_literal. cbn [drop app].
  rewrite bool_decide_eq_true_2 by done.
  rewrite (span_app _ owner).
  2: { eapply Forall_impl; [exact Howner|]. cbn. intros c Hc.
       apply negb_true_iff, N.eqb_neq. done. }
  2: { right. eexists _, _. split; [done|]. done. }
  destruct owner as [|o owner]; [done|].
  rewrite (span_app _ name).
  2: { eapply Forall_impl; [exact Hname|]. cbn. intros c [H1 H2].
       apply andb_true_iff. split; apply negb_true_iff, N.eqb_neq; done. }
  2: { destruct Hpost as [->|(c & post' & -> & [->| ->])]; [by left|right..];
         eexists _, _; (split; [done|]); done. }
  by destruct name.
Qed.

Lemma match_repository_skip c s :
  match_repository_here (c :: s) = None →
  match_repository (c :: s) = match_repository s.
Proof. intros H. cbn [match_repository]. by rewrite H. Qed.

Lemma match_repository_here_other s :
  ¬ js "github.com" `prefix_of` s → match_repository_here s = None.
Proof. intros H. unfold match_repository_here. by rewrite bool_decide_eq_false_2. Qed.

Lemma match_repository_found s g :
  match_repository_here s = Some g → match_repository s = Some g.
Proof. intros H. destruct s; cbn [match_repository]; by rewrite H. Qed.

Lemma match_repository_nonempty s g : match_repository s = Some g → g ≠ [].
Proof.
  induction s as [|c s IH]; [done|]. cbn [match_repository].
  destruct (match_repository_here (c :: s)) as [g'|] eqn:Hhere; [|exact IH].
  intros [= <-].
  destruct (match_repository_here_sound _ _ Hhere)
    as (? & [|o owner] & ? & ? & _ & _ & -> & ? & _); done.
Qed.

(** X6.  What the pattern captures is in the remote URL: it follows
    [github.com] and a colon or a slash, and is an owner without a slash,
    a slash and a name without slash or dot, cut where the name ends. *)
Theorem match_repository_sound s g :
  match_repository s = Some g →
  ∃ before sep owner name post,
    s = before ++ js "github.com" ++ sep :: owner ++ 47%N :: name ++ post ∧
    (sep = 58%N ∨ sep = 47%N) ∧
    g = owner ++ js "/" ++ name ∧
    owner ≠ [] ∧ name ≠ [] ∧
    Forall (λ c, c ≠ 47%N) owner ∧ Forall (λ c, c ≠ 47%N ∧ c ≠ 46%N) name ∧
    (post = [] ∨ ∃ c post', post = c :: post' ∧ (c = 47%N ∨ c = 46%N)).
Proof.
  induction s as [|c s IH].
  - done.
  - cbn [match_repository].
    destruct (match_repository_here (c :: s)) as [g'|] eqn:Hhere.
    + intros [= <-].
      destruct (match_repository_here_sound _ _ Hhere)
        as (sep & owner & name & post & -> & ?).
      by exists [], sep, owner, name, post.
    + intros (before & sep & owner & name & post & -> & ?)%IH.
      by exists (c :: before), sep, owner, name, post.
Qed.

(** X7.  The ssh and the https form of a GitHub remote give
    [owner/name], with or without a suffix after a dot. *)
Theorem match_repository_remotes owner name rest :
  owner ≠ [] → name ≠ [] →
  Forall (λ c, c ≠ 47%N) owner → Forall (λ c, c ≠ 47%N ∧ c ≠ 46%N) name →
  let found := Some (owner ++ js "/" ++ name) in
  match_repository (js "git@github.com:" ++ owner ++ js "/" ++ name) = found ∧
  match_repository (js "git@github.com:" ++ owner ++ js "/" ++ name ++ js "." ++ rest) = found ∧
  match_repository (js "https://github.com/" ++ owner ++ js "/" ++ name) = found ∧
  match_repository (js "https://github.com/" ++ owner ++ js "/" ++ name ++ js "." ++ rest)
    = found.
Proof.
  intros Ho Hn Howner Hname. cbv zeta.
  assert (Hhere : ∀ sep post,
            (sep = 58%N ∨ sep = 47%N) →
            (post = [] ∨ ∃ c post', post = c :: post' ∧ (c = 47%N ∨ c = 46%N)) →
            match_repository (js "github.com" ++ sep :: owner ++ 47%N :: name ++ post)
            = Some (owner ++ js "/" ++ name)).
  { intros sep post Hsep Hpost. apply match_repository_found.
    by apply match_repository_here_complete. }
  assert (Hssh : ∀ post,
            match_repository (js "git@" ++ js "github.com" ++ 58%N :: owner ++ 47%N :: name ++ post)
            = match_repository (js "github.com" ++ 58%N :: owner ++ 47%N :: name ++ post)).
  { intros post. change (js "git@") with [103; 105; 116; 64]%N. cbn [app].
    rewrite match_repository_skip.
    2: { apply match_repository_here_other. rewrite github_literal. by intros [k [=]]. }
    do 3 (rewrite match_repository_skip;
          [|apply match_repository_here_other; rewrite github_literal; by intros [k [=]]]).
    done. }
  assert (Hhttps : ∀ post,
            match_repository (js "https://" ++ js "github.com" ++ 47%N :: owner ++ 47%N :: name ++ post)
            = match_repository (js "github.com" ++ 47%N :: owner ++ 47%N :: name ++ post)).
  { intros post. change (js "https://") with [104; 116; 116; 112; 115; 58; 47; 47]%N.
    cbn [app].
    do 8 (rewrite match_repository_skip;
          [|apply match_repository_here_other; rewrite github_literal; by intros [k [=]]]).
    done. }
  assert (Hdot : ∀ sep, sep = 58%N ∨ sep = 47%N →
            match_repository
              (js "github.com" ++ sep :: owner ++ 47%N :: name ++ js "." ++ rest)
            = Some (owner ++ js "/" ++ name)).
  { intros sep Hsep. apply Hhere; [done|]. right. exists 46%N, rest. auto. }
  assert (Hend : ∀ sep, sep = 58%N ∨ sep = 47%N →
            match_repository (js "github.com" ++ sep :: owner ++ 47%N :: name)
            = Some (owner ++ js "/" ++ name)).
  { intros sep Hsep. rewrite <- (app_nil_r name) at 1. apply Hhere; auto. }
  split_and!.
  - rewrite <- (Hend 58%N) by auto. rewrite <- (app_nil_r name) at 1 2. apply Hssh.
  - rewrite <- (Hdot 58%N) by auto. apply Hssh.
  - rewrite <- (Hend 47%N) by auto. rewrite <- (app_nil_r name) at 1 2. apply Hhttps.
  - rewrite <- (Hdot 47%N) by auto. apply Hhttps.
Qed.

(** ** Trimming *)

Lemma trimStart_head s c r : trimStart s = c :: r → isWhiteSpace c = false.
Proof.
  induction s as [|a s IH]; cbn; [done|].
  destruct (isWhiteSpace a) eqn:Ha; [done|]. by intros [= <- <-].
Qed.

Lemma trimStart_suffix s : trimStart s `suffix_of` s.
Proof.
  induction s as [|a s IH]; cbn; [done|].
  destruct (isWhiteSpace a); [by apply suffix_cons_r|done].
Qed.

Lemma trimEnd_prefix s : trimEnd s `prefix_of` s.
Proof.
  unfold trimEnd. destruct (trimStart_suffix (reverse s)) as [k Hk].
  exists (reverse k). apply (inj reverse). by rewrite reverse_app, !reverse_involutive.
Qed.

Lemma trimEnd_last s r c : trimEnd s = r ++ [c] → isWhiteSpace c = false.
Proof.
  unfold trimEnd. intros H. apply (f_equal reverse) in H.
  rewrite reverse_involutive, reverse_app in H. by apply trimStart_head in H.
Qed.

Lemma trim_ends s :
  (∀ c r, trim s = c :: r → isWhiteSpace c = false) ∧
  (∀ r c, trim s = r ++ [c] → isWhiteSpace c = false) ∧
  ∃ before after, s = before ++ trim s ++ after ∧
    Forall (λ c, isWhiteSpace c = true) before.
Proof.
  unfold trim. split_and!.
  - intros c r H. destruct (trimEnd_prefix (trimStart s)) as [k Hk].
    rewrite H in Hk. by apply trimStart_head in Hk.
  - intros r c. apply trimEnd_last.
  - destruct (trimEnd_prefix (trimStart s)) as [after Hafter].
    assert (∃ before, s = before ++ trimStart s ∧ Forall (λ c, isWhiteSpace c = true) before)
      as (before & Hbefore & Hws).
    { clear. induction s as [|a s (b & Hb & Hw)]; cbn; [by exists []|].
      destruct (isWhiteSpace a) eqn:Ha.
      - exists (a :: b). split; [by rewrite Hb at 1|by constructor].
      - by exists []. }
    exists before, after. split; [|done]. by rewrite <- Hafter.
Qed.

(** X8.  A generated summary has no white space at either end. *)
Theorem generated_summary_trimmed w cd key model s :
  result (generateSummary w cd key model) = inr s →
  (∀ c r, s = c :: r → isWhiteSpace c = false) ∧
  (∀ r c, s = r ++ [c] → isWhiteSpace c = false).
Proof.
  unfold generateSummary. eff.
  destruct (summary_reply w) as [code hs data| |]; cbn; try done.
  intros (v & content & _ & _ & ->)%on_end_accepts.
  destruct (trim_ends content) as (? & ? & _). done.
Qed.

(** X9.  The status code and the headers of the summarisation response
    are not looked at: two responses with the same body end alike. *)
Theorem summary_status_ignored w w' cd key model code hs code' hs' data :
  summary_reply w = Responded code hs data →
  summary_reply w' = Responded code' hs' data →
  result (generateSummary w cd key model) = result (generateSummary w' cd key model).
Proof.
  intros H H'.
  by rewrite (generateSummary_responded _ _ _ _ _ _ _ H),
             (generateSummary_responded _ _ _ _ _ _ _ H').
Qed.

(** ** The repository name *)

(** X10.  The repository lookup never throws and never gives the empty
    string: the environment's name when there is one, with no
    subprocess; else what the pattern finds in the git remote, and
    [unknown/repository] when the query throws or nothing matches. *)
Theorem repository_name_total w :
  ∃ r, result (repository_name w) = inr r ∧ r ≠ [] ∧
    (default [] (GITHUB_REPOSITORY w) ≠ [] →
       r = default [] (GITHUB_REPOSITORY w) ∧ trace (repository_name w) = []) ∧
    (default [] (GITHUB_REPOSITORY w) = [] →
       trace (repository_name w) = [ExecSync git_remote_origin_url] ∧
       r = match execSync w git_remote_origin_url with
           | Some out => default (js "unknown/repository") (match_repository (trim out))
           | None => js "unknown/repository"
           end).
Proof.
  unfold repository_name.
  destruct (default [] (GITHUB_REPOSITORY w)) as [|c e] eqn:He; cbn [nonempty].
  - eff. destruct (execSync w git_remote_origin_url) as [out|]; cbn.
    + eexists. split; [done|]. split_and!; try done.
      destruct (match_repository (trim out)) as [g|] eqn:Hg; cbn; [|done].
      by apply match_repository_nonempty in Hg.
    + eexists. split; [done|]. split_and!; done.
  - eexists. split; [done|]. split_and!; done.
Qed.

(** ** The summary stage, case by case *)

Lemma generateSummary_unfolded w cd key model :
  generateSummary w cd key model =
    let postData := JSON_stringify (summary_payload cd model) in
    MkEff [SummaryRequest (summary_options postData key) postData]
      match summary_reply w with
      | Responded _ _ data => on_end data
      | Errored m => inl (Raised (RequestError m))
      | TimedOut => inl SummaryTimeout
      end.
Proof. unfold generateSummary. eff. by destruct (summary_reply w). Qed.

Lemma resolve_summary_unfolded v w :
  resolve_summary_of v w =
    if nonempty (getInput w (js "changes")) then mret (None, getInput w (js "changes"))
    else
      match result (getCommitChanges_of v w) with
      | inr (Some cd) =>
          let S := generateSummary w cd (getInput w (js "blackbox-api-key"))
                     (or_else (getInput w (js "model")) (js "blackboxai")) in
          MkEff (trace (getCommitChanges_of v w) ++ trace S)
            match result S with inl f => inl f | inr s => inr (Some cd, s) end
      | inr None => MkEff (trace (getCommitChanges_of v w)) (inl NoCommitData)
      | inl f => MkEff (trace (getCommitChanges_of v w)) (inl f)
      end.
Proof.
  unfold resolve_summary_of. destruct (nonempty _); [done|]. eff.
  destruct (result (getCommitChanges_of v w)) as [f|[cd|]]; cbn [trace result]; try done.
  - by destruct (result (generateSummary _ _ _ _)); rewrite ?app_nil_r.
  - by rewrite app_nil_r.
Qed.

Lemma in_extraction v w e :
  e ∈ trace (getCommitChanges_of v w) → ∃ c, e = ExecSync c ∧ c ∈ inspector_commands.
Proof.
  intros He. destruct (extraction_trace_prefix v w) as [k Hk].
  assert (e ∈ ExecSync <$> inspector_commands) as (c & -> & Hc)%list_elem_of_fmap.
  { rewrite Hk. apply elem_of_app. by left. }
  eauto.
Qed.

Lemma delivery_request_made_iff v w :
  delivery_request_made v w ↔
    (∃ cd s, summary_resolved v w cd s) ∧ hasApiConfig_of v w = true ∧
    is_Some (URL_new (getInput w (js "api-url"))).
Proof.
  unfold delivery_request_made. pose proof (run_has_shape v w) as Hshape. split.
  - intros (c & o & d & Hin).
    destruct (shape_with_request _ _ _ _ _ _ Hshape Hin)
      as (cd & s & url & tail & Hs & Hcfg & Hurl & _).
    split_and!; eauto.
  - intros ((cd & s & Hk & Hr) & Hcfg & [url Hurl]).
    destruct Hshape as [?|f ? Hf|? ? _ ?|? ? ? ? ?
                       |? ? url' ? ? ? _ _ _ _|? ? url' ? _ _ _ _]; try congruence.
    all: destruct (delivery_request_is v w url' cd0 s0) as (c & o & d & ->).
    all: exists c, o, d; in_trace.
Qed.

(** Where a failure in the trace of a run comes from. *)
Lemma run_failure_cases v w g :
  SetFailed g ∈ trace (run_of v w) ↔
    (getInput w (js "blackbox-api-key") = [] ∧ g = ApiKeyRequired) ∨
    (getInput w (js "blackbox-api-key") ≠ [] ∧ result (resolve_summary_of v w) = inl g) ∨
    ((∃ cd s, summary_resolved v w cd s) ∧ hasApiConfig_of v w = true ∧
     match URL_new (getInput w (js "api-url")) with
     | None => g = Raised (TypeError_invalid_url (getInput w (js "api-url")))
     | Some _ => delivery_rejection (delivery_reply w) g
     end).
Proof.
  destruct (run_has_shape v w) as [Hk|f Hk Hf|cd s [Hk Hr] Hc|cd s [Hk Hr] Hc Hu
                                  |cd s url code hs data [Hk Hr] Hc Hu Hd
                                  |cd s url f [Hk Hr] Hc Hu Hd].
  all: try destruct (delivery_request_is v w url cd s) as (c' & o' & d' & ->).
  all: rewrite ?Hu, ?Hd; split.
  all: try (intros Hin; locate_with in_resolution in_repository; simplify_eq; done).
  - intros Hin; locate_with in_resolution in_repository; simplify_eq. by left.
  - intros [[? ->]|[[? Hg]|((? & ? & ? & ?) & _)]]; try done. in_trace.
  - intros Hin; locate_with in_resolution in_repository; simplify_eq; try done.
    right; left. done.
  - intros [[? ?]|[[? Hg]|((? & ? & ? & ?) & _)]]; try congruence.
    assert (g = f) as -> by congruence. in_trace.
  - intros [[? ?]|[[? Hg]|(_ & ? & _)]]; congruence.
  - intros Hin; locate_with in_resolution in_repository; simplify_eq; try done.
    right; right. split_and!; eauto. exists cd, s. by split.
  - intros [[? ?]|[[? Hg]|(_ & _ & ->)]]; try congruence. in_trace.
  - intros [[? ?]|[[? Hg]|(_ & _ & Hg)]]; try congruence. inversion Hg.
  - intros Hin; locate_with in_resolution in_repository; simplify_eq; try done.
    right; right. split_and!; eauto. exists cd, s. by split.
  - intros [[? ?]|[[? Hg]|(_ & _ & Hg)]]; try congruence.
    assert (g = f) as ->.
    { destruct Hd; inversion Hg; congruence. }
    in_trace.
Qed.

Lemma resolve_failure_iff v w g :
  result (resolve_summary_of v w) = inl g ↔
    getInput w (js "changes") = [] ∧
    ((result (getCommitChanges_of v w) = inr None ∧ g = NoCommitData) ∨
     ∃ cd, result (getCommitChanges_of v w) = inr (Some cd) ∧
       match summary_reply w with
       | Responded _ _ data => on_end data = inl g
       | Errored m => g = Raised (RequestError m)
       | TimedOut => g = SummaryTimeout
       end).
Proof.
  rewrite resolve_summary_unfolded.
  destruct (nonempty (getInput w (js "changes"))) eqn:Hc.
  { apply nonempty_true in Hc. cbn. naive_solver. }
  apply nonempty_false in Hc.
  destruct (getCommitChanges_result v w) as [[cd|] Hr]; rewrite Hr; cbv zeta.
  2: { cbn. naive_solver. }
  rewrite generateSummary_unfolded. cbn [trace result].
  destruct (summary_reply w) as [? ? data| |]; [destruct (on_end data) eqn:?|..];
    naive_solver.
Qed.

(** X11.  Failures name their cause: the key message is reported exactly
    when the summarisation key is missing, the commit message when no
    commit could be read, each of the two timeouts when the request of
    its stage got no answer, and an invalid URL when [new URL] rejected
    [api-url] after the summary was resolved. *)
Theorem failure_identifies_cause v w :
  (SetFailed ApiKeyRequired ∈ trace (run_of v w) ↔
     getInput w (js "blackbox-api-key") = []) ∧
  (SetFailed NoCommitData ∈ trace (run_of v w) ↔
     getInput w (js "blackbox-api-key") ≠ [] ∧ getInput w (js "changes") = [] ∧
     result (getCommitChanges_of v w) = inr None) ∧
  (SetFailed SummaryTimeout ∈ trace (run_of v w) ↔
     getInput w (js "blackbox-api-key") ≠ [] ∧ getInput w (js "changes") = [] ∧
     (∃ cd, result (getCommitChanges_of v w) = inr (Some cd)) ∧
     summary_reply w = TimedOut) ∧
  (SetFailed RequestTimeout ∈ trace (run_of v w) ↔
     delivery_request_made v w ∧ delivery_reply w = TimedOut) ∧
  (∀ u, SetFailed (Raised (TypeError_invalid_url u)) ∈ trace (run_of v w) ↔
     (∃ cd s, summary_resolved v w cd s) ∧ hasApiConfig_of v w = true ∧
     u = getInput w (js "api-url") ∧
     URL_new (getInput w (js "api-url")) = None).
Proof.
  assert (Hshape : ∀ data g, on_end data = inl g →
            g = InvalidResponseFormat ∨ ∃ cause, g = FailedToParse cause)
    by apply on_end_failure.
  split_and!; [| | | |intros u]; rewrite run_failure_cases, ?resolve_failure_iff,
    ?delivery_request_made_iff.
  - split; [intros [[? ?]|[[? (_ & [[_ ?]|(? & _ & Hs)])]|(_ & _ & Hd)]]|by left]; try done.
    + destruct (summary_reply w); try done. by destruct (Hshape _ _ Hs) as [?|[? ?]].
    + destruct (URL_new _); [inversion Hd|done].
  - split.
    + intros [[? ?]|[[? (? & [[? _]|(? & _ & Hs)])]|(_ & _ & Hd)]]; try done.
      * destruct (summary_reply w); try done. by destruct (Hshape _ _ Hs) as [?|[? ?]].
      * destruct (URL_new _); [inversion Hd|done].
    + intros (? & ? & ?). right; left. eauto.
  - split.
    + intros [[? ?]|[[? (? & [[? ?]|(cd & ? & Hs)])]|(_ & _ & Hd)]]; try done.
      * destruct (summary_reply w) eqn:Hreply; try done; [|by eauto].
        by destruct (Hshape _ _ Hs) as [?|[? ?]].
      * destruct (URL_new _); [inversion Hd|done].
    + intros (? & ? & (cd & ?) & Hreply). right; left. split; [done|]. split; [done|].
      right. exists cd. by rewrite Hreply.
  - split.
    + intros [[? ?]|[[? (? & [[? ?]|(cd & ? & Hs)])]|(? & ? & Hd)]]; try done.
      * destruct (summary_reply w); try done. by destruct (Hshape _ _ Hs) as [?|[? ?]].
      * destruct (URL_new _) eqn:Hu; [|done]. inversion Hd. split_and!; eauto.
    + intros ((? & ? & [url Hu]) & Hreply). right; right.
      rewrite Hu, Hreply. split_and!; eauto. constructor.
  - split.
    + intros [[? ?]|[[? (? & [[? ?]|(cd & ? & Hs)])]|(? & ? & Hd)]]; try done.
      * destruct (summary_reply w); try done. by destruct (Hshape _ _ Hs) as [?|[? ?]].
      * destruct (URL_new _) eqn:Hu; [inversion Hd|]. by simplify_eq.
    + intros (? & ? & -> & Hu). right; right. rewrite Hu. eauto.
Qed.

(** X12.  The summarisation service is asked exactly when the key is
    there, [changes] is empty and a commit was read; the body is the
    payload for that commit and the model, [blackboxai] by default, and
    the key goes in the options. *)
Theorem summary_request_iff v w o d :
  SummaryRequest o d ∈ trace (run_of v w) ↔
    getInput w (js "blackbox-api-key") ≠ [] ∧ getInput w (js "changes") = [] ∧
    ∃ cd, result (getCommitChanges_of v w) = inr (Some cd) ∧
      d = JSON_stringify
            (summary_payload cd (or_else (getInput w (js "model")) (js "blackboxai"))) ∧
      o = summary_options d (getInput w (js "blackbox-api-key")).
Proof.
  assert (Hres : SummaryRequest o d ∈ trace (resolve_summary_of v w) ↔
            getInput w (js "changes") = [] ∧
            ∃ cd, result (getCommitChanges_of v w) = inr (Some cd) ∧
              d = JSON_stringify
                    (summary_payload cd (or_else (getInput w (js "model")) (js "blackboxai"))) ∧
              o = summary_options d (getInput w (js "blackbox-api-key"))).
  { rewrite resolve_summary_unfolded.
    destruct (nonempty (getInput w (js "changes"))) eqn:Hc.
    { apply nonempty_true in Hc. cbn. split; [by intros ?%elem_of_nil|naive_solver]. }
    apply nonempty_false in Hc.
    destruct (getCommitChanges_result v w) as [[cd|] Hr]; rewrite Hr; cbv zeta.
    - rewrite generateSummary_unfolded. cbn [trace result]. split.
      + intros [(? & ? & _)%in_extraction|Hin%list_elem_of_singleton]%elem_of_app; [done|].
        injection Hin as -> ->. eauto.
      + intros (_ & cd' & [= <-] & -> & ->). in_trace.
    - cbn [trace]. split; [by intros (? & ? & _)%in_extraction|naive_solver]. }
  destruct (run_has_shape v w) as [Hk|f Hk Hf|cd s [Hk Hr] Hc|cd s [Hk Hr] Hc Hu
                                  |cd s url code hs data [Hk Hr] Hc Hu Hd
                                  |cd s url f [Hk Hr] Hc Hu Hd].
  all: try destruct (delivery_request_is v w url cd s) as (c' & o' & d' & ->).
  all: rewrite <- Hres; split;
    [ intros Hin; rewrite ?elem_of_app, ?elem_of_cons, ?elem_of_app, ?elem_of_cons,
                          ?elem_of_nil in Hin;
      repeat match goal with H : _ ∨ _ |- _ => destruct H end;
      repeat match goal with
        | H : _ ∈ trace (repository_name _) |- _ => apply in_repository in H
        end; try done
    | intros [? ?]; try done; apply elem_of_app; by left ].
Qed.

(** ** Failure and outputs *)


(** X13.  Without the summarisation key a run does nothing but fail: no
    subprocess, no request, no output. *)
Theorem missing_key_stops_run v w :
  getInput w (js "blackbox-api-key") = [] →
  trace (run_of v w) = [SetFailed ApiKeyRequired].
Proof.
  intros Hk. destruct (run_has_shape v w) as [| |? ? []|? ? []|? ? ? ? ? ? []|? ? ? ? []]; done.
Qed.


(** X15.  [setFailed] is called at most once, and it is then the last
    thing the run does. *)
Theorem failure_is_last v w f :
  SetFailed f ∈ trace (run_of v w) →
  ∃ t, trace (run_of v w) = t ++ [SetFailed f] ∧ ¬ failed t.
Proof.
  unfold failed.
  destruct (run_has_shape v w) as [?|g ? Hg|cd s ? ?|cd s ? ? ?
                                  |cd s url code hs data ? ? ? ?|cd s url g ? ? ? ?];
    intros Hin.
  - exists []. split; [|by intros [? ?%elem_of_nil]].
    locate_with in_resolution in_repository; by simplify_eq.
  - exists (trace (resolve_summary_of v w)). split.
    + locate_with in_resolution in_repository; by simplify_eq.
    + intros [? ?%in_resolution]. done.
  - locate_with in_resolution in_repository; done.
  - exists (trace (resolve_summary_of v w) ++ [SetOutput (js "summary") s]). split.
    + rewrite <- app_assoc. locate_with in_resolution in_repository; by simplify_eq.
    + intros [? ?]. locate_with in_resolution in_repository; done.
  - destruct (delivery_request_is v w url cd s) as (c & o & d & Hreq).
    rewrite Hreq in Hin. locate_with in_resolution in_repository; done.
  - destruct (delivery_request_is v w url cd s) as (c & o & d & Hreq).
    rewrite Hreq in *.
    exists (trace (resolve_summary_of v w) ++ SetOutput (js "summary") s
              :: trace (repository_name w) ++ [DeliveryRequest c o d]). split.
    + rewrite <- !app_assoc. cbn. rewrite <- app_assoc. cbn.
      locate_with in_resolution in_repository; by simplify_eq.
    + intros [? ?]. locate_with in_resolution in_repository; done.
Qed.

(** ** Counting events *)

Lemma occurrences_app p t1 t2 :
  occurrences p (t1 ++ t2) = occurrences p t1 + occurrences p t2.
Proof. unfold occurrences. by rewrite List.filter_app, length_app. Qed.

Lemma occurrences_cons p e t :
  occurrences p (e :: t) = (if p e then 1 else 0) + occurrences p t.
Proof. unfold occurrences. cbn. by destruct (p e). Qed.

Lemma occurrences_none p t :
  Forall (λ e, p e = false) t → occurrences p t = 0.
Proof.
  induction 1 as [|e t He _ IH]; [done|]. by rewrite occurrences_cons, He, IH.
Qed.

Lemma occurrences_prefix p t l :
  t `prefix_of` l → occurrences p t ≤ occurrences p l.
Proof. intros [k ->]. rewrite occurrences_app. lia. Qed.

Lemma inspector_command_once e :
  occurrences (same_kind e) (ExecSync <$> inspector_commands) ≤ 1.
Proof.
  unfold inspector_commands. cbn [fmap list_fmap].
  destruct e as [c| | | |]; try (by vm_compute; lia).
  rewrite !occurrences_cons. cbn [same_kind].
  pose proof commands_distinct as Hd. unfold inspector_commands in Hd.
  apply NoDup_cons_1_2 in Hd.
  repeat (case_bool_decide; [subst c|]);
    repeat (case_bool_decide as Hc; [exfalso; revert Hc; by vm_compute|]);
    vm_compute; lia.
Qed.

(** The summary stage runs the Repository Inspector and then, at most,
    writes one summarisation request. *)
Lemma resolve_summary_events v w :
  trace (resolve_summary_of v w) = [] ∨
  ∃ tail, trace (resolve_summary_of v w) = trace (getCommitChanges_of v w) ++ tail ∧
          (tail = [] ∨ ∃ o d, tail = [SummaryRequest o d]).
Proof.
  unfold resolve_summary_of. destruct (nonempty _); [by left|right].
  destruct (getCommitChanges_result v w) as [[cd|] Hr]; eff; rewrite Hr; cbn [trace result].
  - unfold generateSummary. eff.
    destruct (summary_reply w) as [? ? data| |]; cbn [trace result];
      try destruct (on_end data); cbn; eexists; split; eauto.
  - exists []. auto.
Qed.

Lemma resolve_summary_once v w e :
  occurrences (same_kind e) (trace (resolve_summary_of v w)) ≤ 1.
Proof.
  destruct (resolve_summary_events v w) as [->|(tail & -> & Htail)]; [cbn; lia|].
  rewrite occurrences_app.
  pose proof (occurrences_prefix (same_kind e) _ _ (extraction_trace_prefix v w)) as Hp.
  pose proof (inspector_command_once e) as H1.
  destruct Htail as [->|(o & d & ->)]; [cbn; lia|].
  destruct e; cbn; try lia.
  assert (occurrences (same_kind (SummaryRequest options postData))
            (ExecSync <$> inspector_commands) = 0) as Hz by done.
  lia.
Qed.

Lemma resolve_summary_silent v w e :
  (∀ c, e = ExecSync c → c ∉ inspector_commands) →
  (∀ o d, e ≠ SummaryRequest o d) →
  occurrences (same_kind e) (trace (resolve_summary_of v w)) = 0.
Proof.
  intros Hc Hs. apply occurrences_none.
  eapply Forall_impl; [apply resolve_summary_trace|]. cbn.
  intros [c| | | |] He; destruct e; cbn; try done.
  - case_bool_decide; [subst|done]. by destruct (Hc _ eq_refl).
  - by destruct (Hs options0 postData0).
Qed.

Lemma repository_name_once w e :
  occurrences (same_kind e) (trace (repository_name w)) ≤ 1 ∧
  (e ≠ ExecSync git_remote_origin_url →
   occurrences (same_kind e) (trace (repository_name w)) = 0).
Proof.
  unfold repository_name. destruct (nonempty _); [split; [cbn; lia|done]|].
  eff. destruct (execSync w git_remote_origin_url); cbn.
  all: split; [destruct e; cbn; try case_bool_decide; cbn; lia|].
  all: intros He; destruct e; cbn; try done; case_bool_decide; by subst.
Qed.

(** X16.  A run does nothing twice: no command, no request to either
    service, no output and no failure occurs more than once. *)
Theorem run_effects_at_most_once v w e :
  occurrences (same_kind e) (trace (run_of v w)) ≤ 1.
Proof.
  pose proof (resolve_summary_once v w e) as HR.
  destruct (repository_name_once w e) as [HG HG0].
  destruct (output_names_distinct) as (N1 & N2 & N3).
  assert (HR0 : (∀ c, e = ExecSync c → c ∉ inspector_commands) →
                (∀ o d, e ≠ SummaryRequest o d) →
                occurrences (same_kind e) (trace (resolve_summary_of v w)) = 0)
    by apply resolve_summary_silent.
  destruct (run_has_shape v w) as [?|f ? Hf|cd s ? ?|cd s ? ? ?
                                  |cd s url code hs data ? ? ? ?|cd s url f ? ? ? ?].
  all: try destruct (delivery_request_is v w url cd s) as (c' & o' & d' & ->).
  all: rewrite ?occurrences_app, ?occurrences_cons, ?occurrences_app, ?occurrences_cons.
  all: destruct e as [c|o d|c o d|k x|g]; cbn [same_kind] in *;
    try (rewrite HR0 by done); try (rewrite HG0 by done);
    cbn [occurrences List.filter length]; try lia.
  all: try (repeat case_bool_decide; subst; try done; lia).
  all: destruct (decide (c = git_remote_origin_url)) as [->|Hc];
    [ rewrite HR0; [lia| |done]; intros ? [= <-]; apply remote_query_not_inspector
    | rewrite HG0; [lia|]; by intros [= ->] ].
Qed.

(** ** The delivery request *)

(** X17.  A delivery request goes to the host of the parsed [api-url],
    with [POST], over TLS exactly when the protocol is [https:], and to
    the port of the URL or else to 443 or 80 by the transport. *)
Theorem delivery_request_target v w c o d :
  DeliveryRequest c o d ∈ trace (run_of v w) →
  ∃ url, URL_new (getInput w (js "api-url")) = Some url ∧
    (c = Https ↔ URL.protocol url = js "https:") ∧
    Options.hostname o = URL.hostname url ∧
    Options.port o = (if nonempty (URL.port url) then inl (URL.port url)
                      else inr (match c with Https => 443%N | Http => 80%N end)) ∧
    Options.method o = js "POST".
Proof.
  intros Hin.
  destruct (shape_with_request _ _ _ _ _ _ (run_has_shape v w) Hin)
    as (cd & s & url & tail & _ & _ & Hurl & Hreq & _).
  exists url. split; [done|].
  destruct v; cbn in Hreq; injection Hreq as -> -> ->;
    cbn [Options.hostname Options.port Options.method
         IndexJs.delivery_options IndexTs.delivery_options]; unfold request_port.
  all: case_bool_decide; split_and!; try done.
Qed.

(** X18.  When [changes] is supplied, the body of a delivery request is
    the serialised object with the supplied text as [summary], the
    repository name, [commit_sha] 'unknown', the branch from
    [GITHUB_REF_NAME] or else 'unknown', and the timestamp; the
    TypeScript source writes the fields in another order. *)
Theorem supplied_changes_payload v w c o d :
  getInput w (js "changes") ≠ [] →
  DeliveryRequest c o d ∈ trace (run_of v w) →
  ∃ repository,
    result (repository_name w) = inr repository ∧
    let summary := (js "summary", JStr (getInput w (js "changes"))) in
    let sha := (js "commit_sha", JStr (js "unknown")) in
    let branch :=
      (js "branch", JStr (or_else (default [] (GITHUB_REF_NAME w)) (js "unknown"))) in
    let timestamp := (js "timestamp", JStr (toISOString_now w)) in
    d = JSON_stringify (JObj
          match v with
          | index_js => [summary; (js "repository", JStr repository); sha; branch; timestamp]
          | index_ts => [(js "repository", JStr repository); sha; branch; summary; timestamp]
          end).
Proof.
  intros Hc Hin.
  destruct (shape_with_request _ _ _ _ _ _ (run_has_shape v w) Hin)
    as (cd & s & url & tail & [_ Hres] & _ & _ & Hreq & _).
  rewrite (resolve_summary_supplied _ _ Hc) in Hres. injection Hres as <- <-.
  destruct (repository_name_result w) as [r Hr]. exists r. split; [done|].
  unfold delivery_request_of, repository_of in Hreq. rewrite Hr in Hreq.
  destruct v; by injection Hreq as -> -> ->.
Qed.

(** ** Subprocesses *)

(** X19.  A run executes none but the seven commands of the text:
    those of the Repository Inspector only with a summarisation key and
    no [changes], the query of the git remote only in a run that makes a
    delivery request while the environment names no repository. *)
Theorem run_commands v w command :
  ExecSync command ∈ trace (run_of v w) →
  command ∈ git_remote_origin_url :: inspector_commands ∧
  (command ∈ inspector_commands →
     getInput w (js "blackbox-api-key") ≠ [] ∧ getInput w (js "changes") = []) ∧
  (command = git_remote_origin_url →
     delivery_request_made v w ∧ default [] (GITHUB_REPOSITORY w) = []).
Proof.
  intros Hin.
  assert (Hres : ExecSync command ∈ trace (resolve_summary_of v w) →
            command ∈ inspector_commands ∧ getInput w (js "changes") = []).
  { intros H. split; [by apply in_resolution in H|].
    destruct (decide (getInput w (js "changes") = [])) as [|Hc]; [done|].
    rewrite (resolve_summary_supplied _ _ Hc) in H. by apply elem_of_nil in H. }
  pose proof remote_query_not_inspector as Hne.
  assert (Hmade : ∀ c o d, DeliveryRequest c o d ∈ trace (run_of v w) →
            delivery_request_made v w) by (intros; red; eauto).
  destruct (run_has_shape v w) as [Hk|f Hk Hf|cd s [Hk Hr] Hc|cd s [Hk Hr] Hc Hu
                                  |cd s url code hs data [Hk Hr] Hc Hu Hd
                                  |cd s url f [Hk Hr] Hc Hu Hd].
  all: try destruct (delivery_request_is v w url cd s) as (c' & o' & d' & Hreq);
    try rewrite Hreq in *.
  all: rewrite ?elem_of_app, ?elem_of_cons, ?elem_of_app, ?elem_of_cons, ?elem_of_nil in Hin.
  all: repeat match goal with H : _ ∨ _ |- _ => destruct H end; try done.
  all: try match goal with
    | H : _ ∈ trace (resolve_summary_of _ _) |- _ =>
        destruct (Hres H) as [? ?]; split_and!;
        [by apply list_elem_of_further|done|by intros ->]
    end.
  all: match goal with
    | H : _ ∈ trace (repository_name _) |- _ =>
        pose proof (repository_name_env _ _ H); apply in_repository in H;
        injection H as ->
    end.
  all: split_and!; [by left|done|intros _; split; [|done]].
  all: eapply Hmade; in_trace.
Qed.

(** ** Where the keys go *)



Lemma summary_options_redacted d k k' :
  without_authorization (summary_options d k) = without_authorization (summary_options d k').
Proof. reflexivity. Qed.

Lemma delivery_options_redacted url h d k k' :
  without_authorization (IndexJs.delivery_options url h d k)
  = without_authorization (IndexJs.delivery_options url h d k').
Proof. reflexivity. Qed.




(** ** The two sources side by side *)

(** The trace of a run, in closed form. *)
Lemma run_trace_unfolded v w :
  trace (run_of v w) =
    if nonempty (getInput w (js "blackbox-api-key")) then
      trace (resolve_summary_of v w) ++
      match result (resolve_summary_of v w) with
      | inl f => [SetFailed f]
      | inr (cd, s) => SetOutput (js "summary") s :: delivery_events v w cd s
      end
    else [SetFailed ApiKeyRequired].
Proof.
  unfold delivery_events.
  destruct (run_has_shape v w) as [Hk|f Hk Hf|cd s [Hk Hr] Hc|cd s [Hk Hr] Hc Hu
                                  |cd s url code hs data [Hk Hr] Hc Hu Hd
                                  |cd s url f [Hk Hr] Hc Hu Hd].
  all: first [apply (proj2 (nonempty_true _)) in Hk|apply (proj2 (nonempty_false _)) in Hk].
  all: rewrite Hk, ?Hf, ?Hr, ?Hc, ?Hu, ?Hd; try done.
  by destruct Hd.
Qed.

Lemma delivery_requests_differ w url cd s :
  delivery_request_of index_js w url cd s ≠ delivery_request_of index_ts w url cd s.
Proof.
  intros H.
  apply (f_equal (λ e, match e with
                       | DeliveryRequest _ o _ => Options.headers o !! js "Authorization"
                       | _ => None
                       end)) in H.
  by vm_compute in H.
Qed.

Lemma delivery_events_agree w cd s :
  delivery_events index_js w cd s = delivery_events index_ts w cd s ↔
    getInput w (js "api-url") = [] ∨
    (getInput w (js "api-key") ≠ [] ∧ URL_new (getInput w (js "api-url")) = None).
Proof.
  unfold delivery_events. cbn [hasApiConfig_of].
  destruct (nonempty (getInput w (js "api-url"))) eqn:Hu;
    [apply nonempty_true in Hu|apply nonempty_false in Hu; rewrite andb_false_r; split; by auto].
  destruct (nonempty (getInput w (js "api-key"))) eqn:Ha;
    [apply nonempty_true in Ha|apply nonempty_false in Ha]; cbn [andb].
  - destruct (URL_new _) as [url|]; [|split; by auto].
    split; [|by intros [|[_ ?]]].
    intros H%app_inv_head. apply (f_equal head) in H. cbn [head] in H.
    apply (inj Some) in H. by apply delivery_requests_differ in H.
  - split; [|by intros [|[? _]]].
    destruct (URL_new _) as [url|]; [|done].
    destruct (delivery_request_is index_ts w url cd s) as (c & o & d & ->).
    destruct (trace (repository_name w)) as [|e l] eqn:Ht; [done|].
    assert (e ∈ trace (repository_name w)) as ->%in_repository by (rewrite Ht; left).
    done.
Qed.

Lemma getCommitChanges_alike w :
  ¬ commit_readable w ∨
  (∃ b, execSync w git_branch_show_current = Some b ∧ trim b ≠ []) →
  IndexJs.getCommitChanges w = IndexTs.getCommitChanges w.
Proof.
  rewrite getCommitChanges_js_unfolded, getCommitChanges_ts_unfolded.
  unfold commit_readable. cbv zeta.
  case_commands w; try done.
  - intros [H|(? & [= <-] & Hb%nonempty_true)]; [|by rewrite Hb].
    destruct H. by split_and!.
  - intros [H|(? & [=] & _)]. destruct H. by split_and!.
Qed.

(** X21.  The two sources leave the same trace exactly when the
    summarisation key is missing, or their Repository Inspectors are not
    run or agree and either no summary is resolved, or there is no
    delivery URL, or there is a delivery key and the URL does not parse. *)
Theorem variants_agree_iff w :
  trace (run_of index_js w) = trace (run_of index_ts w) ↔
    getInput w (js "blackbox-api-key") = [] ∨
    ((getInput w (js "changes") ≠ [] ∨ ¬ commit_readable w ∨
      ∃ b, execSync w git_branch_show_current = Some b ∧ trim b ≠ []) ∧
     ((∃ f, result (resolve_summary_of index_js w) = inl f) ∨
      getInput w (js "api-url") = [] ∨
      (getInput w (js "api-key") ≠ [] ∧ URL_new (getInput w (js "api-url")) = None))).
Proof.
  rewrite !run_trace_unfolded.
  destruct (nonempty (getInput w (js "blackbox-api-key"))) eqn:Hk;
    [apply nonempty_true in Hk|apply nonempty_false in Hk; split; by auto].
  assert (Hsame : resolve_summary_of index_js w = resolve_summary_of index_ts w →
            (trace (resolve_summary_of index_js w) ++
               match result (resolve_summary_of index_js w) with
               | inl f => [SetFailed f]
               | inr (cd, s) => SetOutput (js "summary") s :: delivery_events index_js w cd s
               end
             = trace (resolve_summary_of index_ts w) ++
               match result (resolve_summary_of index_ts w) with
               | inl f => [SetFailed f]
               | inr (cd, s) => SetOutput (js "summary") s :: delivery_events index_ts w cd s
               end) ↔
            ((∃ f, result (resolve_summary_of index_js w) = inl f) ∨
             getInput w (js "api-url") = [] ∨
             (getInput w (js "api-key") ≠ [] ∧ URL_new (getInput w (js "api-url")) = None))).
  { intros <-. destruct (result (resolve_summary_of index_js w)) as [f|[cd s]].
    - split; [eauto|done].
    - rewrite <- (delivery_events_agree w cd s). split.
      + intros [= H]%app_inv_head. by right.
      + intros [[? ?]|Heq]; [done|by rewrite Heq]. }
  destruct (decide (getInput w (js "changes") = [])) as [Hc|Hc].
  2: { rewrite Hsame by (by rewrite !resolve_summary_supplied). naive_solver. }
  assert (Hagree : IndexJs.getCommitChanges w = IndexTs.getCommitChanges w →
            resolve_summary_of index_js w = resolve_summary_of index_ts w).
  { intros H. unfold resolve_summary_of. cbn [getCommitChanges_of]. by rewrite H. }
  assert (Hcases : (¬ commit_readable w ∨
                    ∃ b, execSync w git_branch_show_current = Some b ∧ trim b ≠ []) ∨
                   (commit_readable w ∧
                    match execSync w git_branch_show_current with
                    | Some b => trim b = []
                    | None => True
                    end)).
  { unfold commit_readable. case_commands w.
    all: try (left; left; intros (?&?&?&?);
              by repeat match goal with H : is_Some None |- _ => destruct H end).
    - destruct (decide (trim b = [])); [right|left; right; by eauto].
      by split_and!.
    - right. by split_and!. }
  destruct Hcases as [Hyes|[Hread Hbranch]].
  { rewrite Hsame by (by apply Hagree, getCommitChanges_alike). naive_solver. }
  assert (Hno : ¬ (¬ commit_readable w ∨
                   ∃ b, execSync w git_branch_show_current = Some b ∧ trim b ≠ [])).
  { intros [?|(b & Hb & ?)]; [done|]. by rewrite Hb in Hbranch. }
  split; [|naive_solver]. intros Heq. exfalso. clear Hno.
  revert Heq. rewrite !resolve_summary_unfolded, (proj2 (nonempty_false _) Hc).
  cbn [getCommitChanges_of].
  rewrite getCommitChanges_js_unfolded, getCommitChanges_ts_unfolded.
  destruct Hread as ([subject Esubject] & [full Ehash] & [status Estatus] & [names Enames]).
  unfold inspector_commands. cbv zeta. cbn [fmap list_fmap].
  rewrite Esubject, Ehash, Estatus, Enames.
  destruct (execSync w git_branch_show_current) as [b|];
    rewrite ?(proj2 (nonempty_false _) Hbranch).
  all: destruct (execSync w git_rev_parse_head);
    cbn [trace result app fmap option_fmap];
    rewrite ?generateSummary_unfolded; cbn [trace result app]; by intros [=].
Qed.

End Proofs.

(** * The program on the sample worlds *)

#[local] Existing Instance sample_runtime.

(** The ['end'] listener on the sample bodies: the example of the
    specification, the four failures it names, and a body that is not
    JSON. *)
Example on_end_samples :
  on_end body_hello = inr (js "Hello") ∧
  on_end body_malformed = inl (FailedToParse (SyntaxError (js "Unexpected token"))) ∧
  on_end body_no_choices = inl InvalidResponseFormat ∧
  on_end body_no_message = inl InvalidResponseFormat ∧
  on_end body_no_content = inl (FailedToParse (TypeError_nullish (js "trim"))) ∧
  on_end body_indexed = inr (js "ok").
Proof. by vm_compute. Qed.

(** The repository name read from a git remote. *)
Example match_repository_samples :
  match_repository (js "git@github.com:owner/repo.git") = Some (js "owner/repo") ∧
  match_repository (js "https://github.com/owner/repo.git") = Some (js "owner/repo") ∧
  match_repository (js "https://github.com/owner/repo") = Some (js "owner/repo") ∧
  match_repository (js "https://gitlab.com/owner/repo.git") = None.
Proof. by vm_compute. Qed.

(** Request paths of parsed targets: the normalised target parses to a
    URL with the same request path, and a query string stays last. *)
Example request_path_samples :
  request_path <$> URL_new (js "https://x.com/a/") = Some (js "/a/generate-content") ∧
  request_path <$> URL_new (js "https://x.com/a/generate-content")
    = Some (js "/a/generate-content") ∧
  request_path <$> URL_new (js "https://api.example.com/changes?env=ci")
    = Some (js "/changes/generate-content?env=ci") ∧
  request_path <$> URL_new (js "http://localhost:8080") = Some (js "/generate-content").
Proof. by vm_compute. Qed.

(** C1: the statement holds at a delivery answered with 404. *)
Lemma non_success_status_is_soft_witness :
  ¬ failed (trace (run_of index_js world_404)) ∧
  output index_js world_404 (js "status") = Some (js "404") ∧
  output index_js world_404 (js "response") = Some (js "Not Found").
Proof.
  change (js "404") with (Number_toString 404).
  eapply (proj1 (non_success_status_is_soft index_js world_404) _ _ _ 404%Z [] (js "Not Found")).
  - vm_compute. in_trace.
  - reflexivity.
Defined.

(** C1 as stated fails: a delivery URL that [new URL] rejects aborts
    the run, and none of the causes the claim lists is there. *)
Lemma unparsable_url_aborts_run :
  failed (trace (run_of index_js world_bad_url)) ∧
  SetFailed (Raised (TypeError_invalid_url (js "api.example.com/changes")))
    ∈ trace (run_of index_js world_bad_url) ∧
  ¬ (missing_required_config world_bad_url ∨
     extraction_failure index_js world_bad_url ∨
     summarization_failure index_js world_bad_url ∨
     delivery_transport_failure world_bad_url ∨
     delivery_timeout world_bad_url).
Proof.
  split_and!.
  - eexists. vm_compute. in_trace.
  - vm_compute. in_trace.
  - intros [H|[[H _]|[[H _]|[[m H]|H]]]]; vm_compute in H; discriminate.
Qed.

(** C2 as stated fails.  The TypeScript source delivers with a URL and
    no key; and in [index.js] a key and a URL are not enough when the
    URL does not parse. *)
Lemma delivery_without_key :
  (getInput world_url_only (js "api-key") = [] ∧
   delivery_request_made index_ts world_url_only) ∧
  (getInput world_bad_url (js "api-key") ≠ [] ∧
   getInput world_bad_url (js "api-url") ≠ [] ∧
   ¬ delivery_request_made index_js world_bad_url).
Proof.
  split_and!; try done.
  - do 3 eexists. vm_compute. in_trace.
  - intros (c & o & d & H%request_in_trace). vm_compute in H. discriminate.
Qed.

(** C3: the statement holds at a supplied summary with delivery. *)
Lemma supplied_summary_bypasses_generation_witness :
  (∀ e, e ∈ trace (run_of index_js world_supplied) → ¬ resolution_event e) ∧
  (∀ command, ExecSync command ∈ trace (run_of index_js world_supplied) →
     command = git_remote_origin_url ∧ default [] (GITHUB_REPOSITORY world_supplied) = []) ∧
  (getInput world_supplied (js "blackbox-api-key") ≠ [] →
     output index_js world_supplied (js "summary") = Some (js "Bump version")).
Proof. by apply (supplied_summary_bypasses_generation index_js world_supplied). Defined.

(** C3 as stated fails.  Without the summarisation key the supplied
    summary is not published; and with delivery configured and no
    repository in the environment, git is queried for the remote. *)
Lemma supplied_summary_not_always_published :
  (getInput world_no_key (js "changes") ≠ [] ∧
   output index_js world_no_key (js "summary") = None) ∧
  (getInput world_supplied (js "changes") ≠ [] ∧
   ExecSync git_remote_origin_url ∈ trace (run_of index_js world_supplied)).
Proof.
  split_and!; try done.
  vm_compute. in_trace.
Qed.

(** C4: the statement holds at a run without delivery inputs. *)
Lemma delivery_skipped_without_url_witness :
  ¬ failed (trace (run_of index_js world_no_delivery)) ∧
  output index_js world_no_delivery (js "status") = Some (js "200") ∧
  output index_js world_no_delivery (js "response") = Some placeholder.
Proof.
  apply (proj2 (delivery_skipped_without_url index_js world_no_delivery eq_refl)
           None (js "Bump version")).
  split; [done|]. reflexivity.
Defined.

(** C4 as stated fails: without a delivery URL and outside a git
    checkout the run fails. *)
Lemma run_without_url_can_fail :
  getInput world_no_git (js "api-url") = [] ∧
  failed (trace (run_of index_js world_no_git)).
Proof. split; [done|]. eexists. vm_compute. in_trace. Qed.

(** C5: the statement holds at the body of the specification's
    example, which gives [Hello]. *)
Lemma summary_response_handling_witness :
  result (generateSummary world_404 sample_commit (js "bb-key") (js "blackboxai"))
  = inr (js "Hello").
Proof.
  pose proof (summary_response_handling world_404 sample_commit (js "bb-key")
                (js "blackboxai") 200 [] body_hello eq_refl) as (_ & Hspec & _).
  apply (Hspec _ (js " Hello ") eq_refl).
  eexists _, _, _, _. split_and!; reflexivity.
Defined.

(** C5 as stated fails: a body whose [choices] is an object with a
    property [0], not an array, is accepted. *)
Lemma indexed_choices_accepted :
  result (generateSummary world_indexed sample_commit (js "bb-key") (js "blackboxai"))
  = inr (js "ok") ∧
  ¬ ∃ v content, JSON_parse body_indexed = inr v ∧ spec_response_shape v content.
Proof.
  split; [reflexivity|].
  intros (v & content & Hp & props & fields & rest & msg & -> & Hc & _).
  vm_compute in Hp. injection Hp as <-. vm_compute in Hc. discriminate.
Qed.

(** C7: the statement holds at [https://x.com/a/]. *)
Lemma delivery_path_normalized_witness :
  ∃ c o d,
    DeliveryRequest c o d ∈ trace (run_of index_js world_404) ∧
    Options.path o = js "/a/generate-content".
Proof.
  assert (∃ c o d, DeliveryRequest c o d ∈ trace (run_of index_js world_404))
    as (c & o & d & Hin) by (do 3 eexists; vm_compute; in_trace).
  exists c, o, d. split; [exact Hin|].
  destruct (delivery_path_normalized index_js world_404 c o d Hin)
    as (url & Hurl & _ & Hnot).
  vm_compute in Hurl. injection Hurl as <-.
  apply (proj1 (Hnot ltac:(by intros H%endsWith_true)) (js "/a")). reflexivity.
Defined.

(** C8: the statement holds at the commit of [sample_git]. *)
Lemma shortHash_prefix_of_hash_witness :
  shortHash sample_commit `prefix_of` hash sample_commit ∧
  (8 ≤ length (hash sample_commit) →
     shortHash sample_commit = take 8 (hash sample_commit) ∧
     length (shortHash sample_commit) = 8) ∧
  (length (hash sample_commit) < 8 → shortHash sample_commit = hash sample_commit).
Proof. apply (shortHash_prefix_of_hash index_js world_404). reflexivity. Defined.

(** C9: the statement holds in [index.js] at the key [secret]. *)
Lemma delivery_request_headers_witness :
  ∃ c o d,
    DeliveryRequest c o d ∈ trace (run_of index_js world_404) ∧
    Options.headers o !! js "Authorization" = Some (HText (js "Bearer secret")).
Proof.
  assert (∃ c o d, DeliveryRequest c o d ∈ trace (run_of index_js world_404))
    as (c & o & d & Hin) by (do 3 eexists; vm_compute; in_trace).
  exists c, o, d. split; [exact Hin|].
  apply (delivery_request_headers index_js world_404 c o d Hin).
Defined.

(** C9 as stated fails: with the same inputs, key included, the
    request of the TypeScript source has no [Authorization] header. *)
Lemma no_authorization_in_ts :
  getInput world_404 (js "api-key") = js "secret" ∧
  ∃ c o d,
    DeliveryRequest c o d ∈ trace (run_of index_ts world_404) ∧
    Options.headers o !! js "Authorization" = None.
Proof.
  split; [reflexivity|].
  do 3 eexists. split.
  - vm_compute. in_trace.
  - by vm_compute.
Qed.

(** C10: the statement holds at a delivery that ends in a socket error. *)
Lemma summary_published_before_delivery_witness :
  failed (trace (run_of index_js world_reset)) ∧
  is_Some (output index_js world_reset (js "summary")) ∧
  output index_js world_reset (js "response") = None ∧
  output index_js world_reset (js "status") = None.
Proof.
  eapply (proj2 (proj2 (summary_published_before_delivery index_js world_reset))).
  - vm_compute. in_trace.
  - left. by eexists.
Defined.

(** ** Beyond the claims *)

(** X2: the record read from [sample_git]. *)
Lemma getCommitChanges_record_witness :
  result (getCommitChanges_of index_js world_404) = inr (Some sample_commit) ∧
  ∃ full,
    execSync world_404 git_log_hash = Some full ∧ hash sample_commit = trim full ∧
    ∃ b, execSync world_404 git_branch_show_current = Some b ∧
         trim b ≠ [] ∧ branch sample_commit = trim b.
Proof.
  split; [reflexivity|].
  destruct (getCommitChanges_record index_js world_404 sample_commit eq_refl)
    as (subject & full & status & names & _ & _ & Hfull & Hhash & _ & _ & _ & _ & Hbranch).
  exists full. split_and!; [exact Hfull|exact Hhash|].
  destruct Hbranch as (b & Hb & [[? ?]|[Hempty _]]).
  - by exists b.
  - vm_compute in Hb. injection Hb as <-. vm_compute in Hempty. discriminate.
Defined.

(** X6: the capture in an ssh remote. *)
Lemma match_repository_sound_witness :
  match_repository (js "git@github.com:owner/repo.git") = Some (js "owner/repo") ∧
  ∃ before sep owner name post,
    js "git@github.com:owner/repo.git"
      = before ++ js "github.com" ++ sep :: owner ++ 47%N :: name ++ post ∧
    js "owner/repo" = owner ++ js "/" ++ name ∧
    Forall (λ c, c ≠ 47%N ∧ c ≠ 46%N) name.
Proof.
  split; [reflexivity|].
  destruct (match_repository_sound (js "git@github.com:owner/repo.git") (js "owner/repo")
              eq_refl)
    as (before & sep & owner & name & post & Hs & _ & Hg & _ & _ & _ & Hname & _).
  by exists before, sep, owner, name, post.
Defined.

(** X7: the remotes of [owner/repo]. *)
Lemma match_repository_remotes_witness :
  match_repository (js "git@github.com:owner/repo") = Some (js "owner/repo") ∧
  match_repository (js "git@github.com:owner/repo.git") = Some (js "owner/repo") ∧
  match_repository (js "https://github.com/owner/repo") = Some (js "owner/repo") ∧
  match_repository (js "https://github.com/owner/repo.git") = Some (js "owner/repo").
Proof.
  apply (match_repository_remotes (js "owner") (js "repo") (js "git")); try done.
  - apply Forall_forall. intros c Hc%list_elem_of_In. vm_compute in Hc.
    intros ->. repeat destruct Hc as [Hc|Hc]; done.
  - apply Forall_forall. intros c Hc%list_elem_of_In. vm_compute in Hc.
    split; intros ->; repeat destruct Hc as [Hc|Hc]; done.
Defined.

(** X8: the summary made of the body [body_hello]. *)
Lemma generated_summary_trimmed_witness :
  result (generateSummary world_404 sample_commit (js "bb-key") (js "blackboxai"))
    = inr (js "Hello") ∧
  (∀ c r, js "Hello" = c :: r → isWhiteSpace c = false) ∧
  (∀ r c, js "Hello" = r ++ [c] → isWhiteSpace c = false).
Proof.
  split; [reflexivity|].
  apply (generated_summary_trimmed world_404 sample_commit (js "bb-key") (js "blackboxai")).
  reflexivity.
Defined.

(** X9: the same body with status 200 and with status 500. *)
Lemma summary_status_ignored_witness :
  result (generateSummary world_404 sample_commit (js "bb-key") (js "blackboxai"))
  = result (generateSummary world_500 sample_commit (js "bb-key") (js "blackboxai")).
Proof.
  by apply (summary_status_ignored world_404 world_500 sample_commit (js "bb-key")
              (js "blackboxai") 200 [] 500 [(js "retry-after", js "1")] body_hello).
Defined.

(** X13: a run with [changes] and no summarisation key. *)
Lemma missing_key_stops_run_witness :
  getInput world_no_key (js "blackbox-api-key") = [] ∧
  trace (run_of index_js world_no_key) = [SetFailed ApiKeyRequired].
Proof.
  split; [reflexivity|]. by apply (missing_key_stops_run index_js world_no_key).
Defined.

(** X15: a run whose delivery ends in a socket error. *)
Lemma failure_is_last_witness :
  ∃ t, trace (run_of index_js world_reset)
         = t ++ [SetFailed (Raised (RequestError (js "socket hang up")))] ∧
       ¬ failed t.
Proof.
  apply (failure_is_last index_js world_reset). vm_compute. in_trace.
Defined.

(** X17: the request to [https://x.com/a/]. *)
Lemma delivery_request_target_witness :
  ∃ c o d,
    DeliveryRequest c o d ∈ trace (run_of index_js world_404) ∧
    c = Https ∧ Options.hostname o = js "x.com" ∧ Options.port o = inr 443%N.
Proof.
  assert (∃ c o d, DeliveryRequest c o d ∈ trace (run_of index_js world_404))
    as (c & o & d & Hin) by (do 3 eexists; vm_compute; in_trace).
  exists c, o, d. split; [exact Hin|].
  destruct (delivery_request_target index_js world_404 c o d Hin)
    as (url & Hurl & Hc & Hhost & Hport & _).
  vm_compute in Hurl. injection Hurl as <-.
  assert (c = Https) as -> by (by apply Hc).
  by split_and!.
Defined.

(** X18: a supplied summary, delivered with the name of the git remote. *)
Lemma supplied_changes_payload_witness :
  getInput world_supplied (js "changes") = js "Bump version" ∧
  ∃ c o d,
    DeliveryRequest c o d ∈ trace (run_of index_js world_supplied) ∧
    result (repository_name world_supplied) = inr (js "owner/repo") ∧
    d = JSON_stringify
          (JObj [(js "summary", JStr (js "Bump version"));
                 (js "repository", JStr (js "owner/repo"));
                 (js "commit_sha", JStr (js "unknown"));
                 (js "branch", JStr (js "main"));
                 (js "timestamp", JStr (js "2023-12-01T12:00:00.000Z"))]).
Proof.
  split; [reflexivity|].
  assert (∃ c o d, DeliveryRequest c o d ∈ trace (run_of index_js world_supplied))
    as (c & o & d & Hin) by (do 3 eexists; vm_compute; in_trace).
  exists c, o, d. split; [exact Hin|].
  destruct (supplied_changes_payload index_js world_supplied c o d) as (r & Hr & Hd);
    [done|exact Hin|].
  vm_compute in Hr. injection Hr as <-. split; [reflexivity|exact Hd].
Defined.

(** X19: the query of the git remote in a run with [changes]. *)
Lemma run_commands_witness :
  ExecSync git_remote_origin_url ∈ trace (run_of index_js world_supplied) ∧
  delivery_request_made index_js world_supplied ∧
  default [] (GITHUB_REPOSITORY world_supplied) = [].
Proof.
  assert (Hin : ExecSync git_remote_origin_url ∈ trace (run_of index_js world_supplied))
    by (vm_compute; in_trace).
  split; [exact Hin|].
  by apply (run_commands index_js world_supplied git_remote_origin_url Hin).
Defined.

